(** * Sounder: a shallow embedding of [Sounder.js]

    The JavaScript class [Sounder] keeps a registry of named sounds, builds an
    [<audio>] element with one [<source>] for each of them and offers
    play / pause / stop on top of a coalesced, promise based preparation step.

    Conventions of the embedding.
    - JavaScript values that the code inspects are [val]; numbers are IEEE
      doubles, i.e. Rocq's primitive floats.
    - A string is the sequence of its bytes (UTF-8): a character outside
      ASCII is made of bytes above 127, which no ASCII pattern matches.
    - Plain objects used as records of options (a sound description) are finite
      maps from own property names to values; their prototype is
      [Object.prototype]. No value of [val] is a function.
    - The source updates a description in place ([sound.audio = ...]), and an
      array may hold one object several times. An array is therefore given by
      the things it refers to, each once (a store), and by its items as
      indices into them; an executor reads its item in the store and writes it
      back. The registry [this.__sounds] holds each of its objects once: a
      new object that [$.extend] made, or what a fulfilled promise gave
      (an element, or a description that has its element and is written no
      more). So the registry is kept by value, and the array a caller gives
      to [addSounds] has a store of its own.
    - [throw new Error(msg)] is [Throw e], one constructor of [error] for each
      throw site; [kind_of] gives the error kind the specification uses.
    - A promise is described by what it settles to: [Fulfilled], [Rejected], or
      [Forever] when nothing ever settles it. A chain [p.then(f).catch(g)] is
      the composition [catch_ g (then_ f p)], the handlers running one after
      the other on the world, as the single-threaded job queue runs them.
    - The one promise several callers share is the one [prepare] returns. It
      has a handle, and [prepare] is split at its [return]: the call, and the
      later settlement of the run ([deliver]). The events of [step] are what
      may happen in between.
    - The DOM, the console and the instance live in an explicit [world]. *)

From Stdlib Require Import String Ascii List Bool Lia PrimFloat.
From stdpp Require Import base strings gmap list option.

Local Open Scope string_scope.

(** ** JavaScript values *)

Inductive val :=
| VUndef
| VNull
| VBool (b : bool)
| VNum (f : float)
| VStr (s : string)
| VAudio (id : nat).   (* a reference to an HTMLAudioElement of the DOM heap *)

(** A sound description: [{ name: ..., loop: ..., audio: ... }]. *)
Abbreviation obj := (gmap string val).

(** ToBoolean. *)
Definition truthy (v : val) : bool :=
  match v with
  | VUndef | VNull => false
  | VBool b => b
  | VNum f => negb (PrimFloat.is_zero f || PrimFloat.is_nan f)
  | VStr s => negb (String.eqb s "")
  | VAudio _ => true
  end.

(** The [typeof] operator. *)
Definition typeof (v : val) : string :=
  match v with
  | VUndef => "undefined"
  | VNull => "object"
  | VBool _ => "boolean"
  | VNum _ => "number"
  | VStr _ => "string"
  | VAudio _ => "object"
  end.

(** [a === b]. Numbers compare as IEEE doubles (NaN differs from itself, both
    zeros are equal), elements by reference. *)
Definition strict_eq (a b : val) : bool :=
  match a, b with
  | VUndef, VUndef | VNull, VNull => true
  | VBool x, VBool y => Bool.eqb x y
  | VNum x, VNum y => PrimFloat.eqb x y
  | VStr x, VStr y => String.eqb x y
  | VAudio x, VAudio y => Nat.eqb x y
  | _, _ => false
  end.

(** Reading a property of a plain object: [o[k]], [undefined] when absent. *)
Definition prop (o : obj) (k : string) : val := default VUndef (o !! k).

(** ** Errors and results *)

Inductive error :=
| IncorrectAudioExtension   (* "Got incorrect audio extension: <ext>." *)
| AudioTypeNotFound         (* "Failed at looking for audio type 'undefined'." *)
| InvalidAttribute          (* "Got invalid HTML attribute of <audio> element." *)
| InvalidAudioElem          (* "Got invalid <audio> element." *)
| IncorrectAudioElem        (* "Got incorrect <audio> element." *)
| InvalidExtension          (* "Got invalid audio extension." *)
| IncorrectSoundName        (* "Got incorrect sound name." *)
| NoAvailableExtension      (* "No available extension of sound were found at server!" *)
| NoExtensions              (* "There are no available extensions." *)
| NoPlayableExtension       (* "Failed at looking for audio extension browser can play!" *)
| SoundDataNotFound         (* "Failed at looking for sound data with name '<name>'." *)
| IncorrectExtensionsArray  (* "Got incorrect array of available extensions." *)
| TypeError                 (* a member access on undefined, a call of what is no function *)
| HostError.                (* an exception raised by a host primitive *)

(** The error kinds of the specification. *)
Inductive kind :=
| InvalidSoundName | SoundNotFound | UnknownEncoding | NoPlayableFormat
| InvalidAttributeKind | InvalidExtensionKind | OtherKind.

Definition kind_of (e : error) : kind :=
  match e with
  | IncorrectSoundName => InvalidSoundName
  | SoundDataNotFound => SoundNotFound
  | IncorrectAudioExtension | AudioTypeNotFound => UnknownEncoding
  | NoExtensions | NoPlayableExtension => NoPlayableFormat
  | InvalidAttribute => InvalidAttributeKind
  | InvalidExtension => InvalidExtensionKind
  | _ => OtherKind
  end.

Inductive result (A : Type) :=
| Ok (a : A)
| Throw (e : error).
Arguments Ok {A} a.
Arguments Throw {A} e.

Definition rbind {A B} (r : result A) (k : A -> result B) : result B :=
  match r with
  | Ok a => k a
  | Throw e => Throw e
  end.

(** [o.hasOwnProperty(k)]: a call of what the object finds under the name
    [hasOwnProperty]. An own property of that name hides the method of
    [Object.prototype], and none of the values of [val] can be called. *)
Definition hasOwnProperty (o : obj) (k : string) : result bool :=
  match o !! "hasOwnProperty" with
  | Some _ => Throw TypeError
  | None => Ok (bool_decide (is_Some (o !! k)))
  end.

(** ** Strings: the few operations of the source *)

Definition upper (c : ascii) : ascii :=
  let n := nat_of_ascii c in
  if (97 <=? n)%nat && (n <=? 122)%nat then ascii_of_nat (n - 32) else c.

Definition lower (c : ascii) : ascii :=
  let n := nat_of_ascii c in
  if (65 <=? n)%nat && (n <=? 90)%nat then ascii_of_nat (n + 32) else c.

(** [s.toUpperCase()] as the catalog lookup of [__getAudioType] needs it: the
    letters a to z are put in upper case and every other byte is kept. The
    method also changes characters outside ASCII, a few of them into ASCII
    letters; what such a character becomes is made of the letters S, F, I, L
    and T alone, or still holds a character outside ASCII. No key of the
    catalog is so made, hence a string with a character outside ASCII is no
    key, here as there. The source calls the method nowhere else. *)
Fixpoint toUpperCase (s : string) : string :=
  match s with
  | EmptyString => EmptyString
  | String c s' => String (upper c) (toUpperCase s')
  end.

(** [p] is a prefix of [s]; what follows it. *)
Fixpoint drop_prefix (p s : string) : option string :=
  match p, s with
  | EmptyString, _ => Some s
  | String a p', String b s' => if Ascii.eqb a b then drop_prefix p' s' else None
  | String _ _, EmptyString => None
  end.

(** [s.replace(/p/, '')] for a literal pattern: the first occurrence is cut. *)
Fixpoint replace_first (p s : string) {struct s} : string :=
  match drop_prefix p s with
  | Some rest => rest
  | None =>
      match s with
      | EmptyString => EmptyString
      | String c s' => String c (replace_first p s')
      end
  end.

(** [p] is a prefix of [s], letters compared without case. *)
Fixpoint prefix_ci (p s : string) : bool :=
  match p, s with
  | EmptyString, _ => true
  | String a p', String b s' => Ascii.eqb (lower a) (lower b) && prefix_ci p' s'
  | String _ _, EmptyString => false
  end.

(** [/p/i.test(s)] for a literal pattern. *)
Fixpoint test_ci (p s : string) {struct s} : bool :=
  prefix_ci p s ||
  match s with
  | EmptyString => false
  | String _ s' => test_ci p s'
  end.

(** ** The format catalog *)

Definition OGG := "ogg".
Definition MP4 := "mp4".
Definition MP3 := "mp3".
Definition WAV := "wav".
Definition AAC := "aac".

(** The double quote character of the codec parameters. *)
Definition dquote : string := String (ascii_of_nat 34) EmptyString.

Definition OGG_TYPE := "audio/ogg; codecs=" ++ dquote ++ "vorbis" ++ dquote.
Definition MP4_TYPE := "audio/mp4; codecs=" ++ dquote ++ "mp4a.40.5" ++ dquote.
Definition MP3_TYPE := "audio/mpeg;".
Definition WAV_TYPE := "audio/wav; codecs=" ++ dquote ++ "1" ++ dquote.
Definition AAC_TYPE := "audio/mp4; codecs=" ++ dquote ++ "mp4a.40.2" ++ dquote.

(** The static properties of [Sounder] whose name ends in [_TYPE]. *)
Definition Sounder_types : list (string * string) :=
  [ ("OGG_TYPE", OGG_TYPE); ("MP4_TYPE", MP4_TYPE); ("MP3_TYPE", MP3_TYPE);
    ("WAV_TYPE", WAV_TYPE); ("AAC_TYPE", AAC_TYPE) ].

Fixpoint assoc (k : string) (l : list (string * string)) : option string :=
  match l with
  | [] => None
  | (k', v) :: l' => if String.eqb k k' then Some v else assoc k l'
  end.

(** [Sounder.__getAudioType]. *)
Definition __getAudioType (ext : string) : result string :=
  if String.eqb ext "" then Throw IncorrectAudioExtension
  else match assoc (toUpperCase ext ++ "_TYPE") Sounder_types with
       | Some type => if String.eqb type "" then Throw AudioTypeNotFound else Ok type
       | None => Throw AudioTypeNotFound
       end.

(** ** The host environment

    What the browser provides: the capability query of an audio element (absent
    in a browser without [canPlayType]), the two identification strings of
    [window.navigator], the conversion of a number to a string, and whether
    [play()] or [pause()] of an element raises. *)
Record Navigator := {
  vendor : string;
  userAgent : string
}.

Record Host := {
  canPlayType : option (string -> string);
  navigator : Navigator;
  numToString : float -> string;
  playRaises : nat -> bool;
  pauseRaises : nat -> bool
}.

(** ** The browser classifier *)

Definition isOpera (ua : string) : bool := test_ci "opera" ua || test_ci "opr" ua.

(** [Sounder.prototype.__getBrowserName], with [window.navigator] as argument. *)
Definition __getBrowserName (nav : Navigator) : string :=
  let v := vendor nav in
  let ua := userAgent nav in
  if test_ci "chrome" ua && test_ci "google inc." v && negb (isOpera ua) then "chrome"
  else if test_ci "firefox" ua then "firefox"
  else if isOpera ua then "opera"
  else if test_ci "msie" ua then "explorer"
  else if test_ci "edge" ua then "edge"
  else if test_ci "Apple Computer, Inc." v then "safari"
  else "".

(** [this.__attrs] and [this.__exts], set once by the constructor. *)
Definition __attrs : list string := ["autoplay"; "loop"; "muted"; "preload"; "volume"].

Definition __exts : gmap string (list string) :=
  list_to_map
    [ ("all", [WAV; OGG; AAC; MP3; MP4]);
      ("firefox", [OGG; MP3; WAV]);
      ("chrome", [OGG; MP4; MP3; WAV; AAC]);
      ("opera", [OGG]);
      ("safari", [MP4; MP3; WAV; AAC]);
      ("explorer", [MP3]);
      ("edge", [MP4; MP3; WAV; AAC]) ].

(** [Sounder.prototype.__getBrowserExts]; [None] is [undefined]. *)
Definition __getBrowserExts (nav : Navigator) : option (list string) :=
  let browserName := __getBrowserName nav in
  __exts !! (if truthy (VStr browserName) then browserName else "all").

(** [Array.prototype.includes] on strings. *)
Definition includes (x : string) (l : list string) : bool := existsb (String.eqb x) l.

(** ** Validators *)

Definition validateAttr (attr : string) : bool := includes attr __attrs.

Definition validateAttrStrict (attr : string) : result string :=
  if validateAttr attr then Ok attr else Throw InvalidAttribute.

(** [audio instanceof HTMLAudioElement]. *)
Definition __validateAudioElem (audio : val) : bool :=
  match audio with
  | VAudio _ => true
  | _ => false
  end.

Definition __validateAudioElemStrict (audio : val) : result nat :=
  match audio with
  | VAudio id => Ok id
  | _ => Throw InvalidAudioElem
  end.

Definition validateExt (ext : string) : bool :=
  includes ext (default [] (__exts !! "all")).

Definition validateExtStrict (ext : string) : result string :=
  if validateExt ext then Ok ext else Throw InvalidExtension.

(** ** Format negotiation *)

(** [Sounder.__canPlayExt]: [!!(a.canPlayType && a.canPlayType(type).replace(/no/, ''))].
    The type is looked up only when the element has a [canPlayType]. *)
Definition __canPlayExt (h : Host) (ext : string) : result bool :=
  match canPlayType h with
  | None => Ok false
  | Some query =>
      rbind (__getAudioType ext) (fun type =>
        Ok (truthy (VStr (replace_first "no" (query type)))))
  end.

(** The [for] loop of [__getExtFromAvailableExts]. *)
Fixpoint first_playable (h : Host) (exts : list string) : result string :=
  match exts with
  | [] => Throw NoPlayableExtension
  | ext :: rest =>
      rbind (__canPlayExt h ext) (fun can =>
        if can then Ok ext else first_playable h rest)
  end.

(** [Sounder.prototype.__getExtFromAvailableExts]; [None] is a value that is
    not an array. *)
Definition __getExtFromAvailableExts (h : Host) (exts : option (list string)) : result string :=
  match exts with
  | None => Throw IncorrectExtensionsArray
  | Some exts =>
      if Nat.eqb (length exts) 0 then Throw NoExtensions
      else first_playable h exts
  end.

(** ** The registry and the instance *)

(** An element of [this.__sounds], or an item of the array given to
    [addSounds]: a sound description, or (when [__makeAudioElem] resolved with
    [sound.audio]) an audio element itself. *)
Inductive entry :=
| ESound (sound : obj)
| EAudio (id : nat).

(** An entry read as a bag of own properties. An audio element has none of
    the properties the code reads ([name], [audio], the five attributes are
    no own properties of it). The property [audio] that an executor adds to
    an element which is itself an item is not kept: such an item is read as
    having none each time. *)
Definition as_obj (e : entry) : obj :=
  match e with
  | ESound sound => sound
  | EAudio _ => ∅
  end.

Record Sounder := {
  __browserExts : option (list string);
  __sounds : list entry;
  __path : string;
  __autoplay : val;
  __loop : val;
  __muted : val;
  __preload : val;
  __volume : val;
  __ready : bool;
  __preparing : bool;
  __preparingPromise : option nat   (* [null] or the handle of a promise *)
}.

Definition set_sounds (l : list entry) (s : Sounder) : Sounder :=
  {| __browserExts := __browserExts s; __sounds := l; __path := __path s;
     __autoplay := __autoplay s; __loop := __loop s; __muted := __muted s;
     __preload := __preload s; __volume := __volume s; __ready := __ready s;
     __preparing := __preparing s; __preparingPromise := __preparingPromise s |}.

Definition set_ready (b : bool) (s : Sounder) : Sounder :=
  {| __browserExts := __browserExts s; __sounds := __sounds s; __path := __path s;
     __autoplay := __autoplay s; __loop := __loop s; __muted := __muted s;
     __preload := __preload s; __volume := __volume s; __ready := b;
     __preparing := __preparing s; __preparingPromise := __preparingPromise s |}.

Definition set_preparing (b : bool) (s : Sounder) : Sounder :=
  {| __browserExts := __browserExts s; __sounds := __sounds s; __path := __path s;
     __autoplay := __autoplay s; __loop := __loop s; __muted := __muted s;
     __preload := __preload s; __volume := __volume s; __ready := __ready s;
     __preparing := b; __preparingPromise := __preparingPromise s |}.

Definition set_preparingPromise (p : option nat) (s : Sounder) : Sounder :=
  {| __browserExts := __browserExts s; __sounds := __sounds s; __path := __path s;
     __autoplay := __autoplay s; __loop := __loop s; __muted := __muted s;
     __preload := __preload s; __volume := __volume s; __ready := __ready s;
     __preparing := __preparing s; __preparingPromise := p |}.

(** [this["__" + attr]] for the attribute names. *)
Definition instance_attr (s : Sounder) (attr : string) : val :=
  if String.eqb attr "autoplay" then __autoplay s
  else if String.eqb attr "loop" then __loop s
  else if String.eqb attr "muted" then __muted s
  else if String.eqb attr "preload" then __preload s
  else if String.eqb attr "volume" then __volume s
  else VUndef.

(** ** Construction *)

(** The object given to the constructor. An option that is left out reads as
    [undefined]; [sounds] is [None] when it is left out or is not an array. *)
Record Params := {
  sounds : option (list obj);
  path : val;
  autoplay : val;
  loop : val;
  muted : val;
  preload : val;
  volume : val
}.

(** [Sounder.prototype.__getDefSoundParams]. *)
Definition __getDefSoundParams : obj :=
  list_to_map
    [ ("autoplay", VBool false); ("loop", VBool false); ("muted", VBool false);
      ("preload", VBool true); ("volume", VNum 1%float) ].

Definition is_undefined (v : val) : bool :=
  match v with
  | VUndef => true
  | _ => false
  end.

(** jQuery's [$.extend(target, source)] (the library is not part of the
    sources): every own property of [source] whose value is not [undefined] is
    copied onto [target], so the fields of the spec take precedence. *)
Definition extend (target source : obj) : obj :=
  filter (λ kv, is_undefined kv.2 = false) source ∪ target.

(** [Array.prototype.map] with a callback that may throw. *)
Fixpoint map_result {A B} (f : A -> result B) (l : list A) : result (list B) :=
  match l with
  | [] => Ok []
  | x :: l' => rbind (f x) (fun y => rbind (map_result f l') (fun ys => Ok (y :: ys)))
  end.

(** [Sounder.prototype.__prepareSounds]. *)
Definition __prepareSounds (sounds : option (list obj)) : result (list obj) :=
  let sounds := default [] sounds in
  if Nat.eqb (length sounds) 0 then Ok []
  else map_result (fun sound =>
         if negb (truthy (prop sound "name")) then Throw IncorrectSoundName
         else Ok (extend __getDefSoundParams sound)) sounds.

(** [new Sounder(params)]. *)
Definition new_Sounder (nav : Navigator) (params : Params) : result Sounder :=
  rbind (__prepareSounds (sounds params)) (fun prepared =>
    Ok {| __browserExts := __getBrowserExts nav;
          __sounds := ESound <$> prepared;
          __path := match path params with VStr s => s | _ => "" end;
          __autoplay := if String.eqb (typeof (autoplay params)) "string"
                        then autoplay params else VBool false;
          __loop := if String.eqb (typeof (loop params)) "boolean"
                    then loop params else VBool false;
          __muted := if String.eqb (typeof (muted params)) "boolean"
                     then muted params else VBool false;
          __preload := if String.eqb (typeof (preload params)) "boolean"
                       then preload params else VBool true;
          __volume := if String.eqb (typeof (volume params)) "number"
                      then volume params else VNum 1%float;
          __ready := false;
          __preparing := false;
          __preparingPromise := None |}).

(** ** The DOM, the console and the world *)

(** A [<source>] element: its [src] property and its [type] attribute. *)
Record source := {
  src : string;
  type : string
}.

(** An [<audio>] element. Attributes hold the value handed to [setAttribute]. *)
Record audio := {
  attrs : gmap string val;
  children : list source;
  paused : bool;
  currentTime : float
}.

Inductive warning :=
| WarnInit        (* "Failed at preparing 'Sounder' instance." *)
| WarnPlay (soundName : val) (e : error)
                  (* "Failed at playing sound with name '<name>'." *)
| WarnPause (soundName : val) (e : error)
                  (* "Failed at setting '<name>' sound on pause." *)
| WarnPrepare     (* "Failed at preparing <audio> elements." *)
| WarnMake (name : val).
                  (* "Failed at making '<name>' <audio> element." *)

(** What a promise settles to. *)
Inductive outcome (A : Type) :=
| Fulfilled (a : A)
| Rejected (e : error)
| Forever.
Arguments Fulfilled {A} a.
Arguments Rejected {A} e.
Arguments Forever {A}.

(** The values the promises of the facade resolve with. *)
Inductive pvalue :=
| PThis        (* the instance *)
| PUndefined.

(** A preparation run in flight: the promise [prepare] returned for it and
    what its [__makeAudioElemsFromData] settles to. *)
Record run := {
  run_promise : nat;
  run_result : outcome (list entry)
}.

Record world := {
  inst : Sounder;
  dom : gmap nat audio;
  next_elem : nat;
  console : list warning;
  promises : gmap nat (outcome pvalue);   (* the settled promises of the facade *)
  next_promise : nat;
  inflight : list run;
  init_promise : option nat               (* the promise [Sounder.init] attached its handler to *)
}.

Definition with_inst (f : Sounder -> Sounder) (w : world) : world :=
  {| inst := f (inst w); dom := dom w; next_elem := next_elem w; console := console w;
     promises := promises w; next_promise := next_promise w; inflight := inflight w;
     init_promise := init_promise w |}.

Definition with_dom (f : gmap nat audio -> gmap nat audio) (w : world) : world :=
  {| inst := inst w; dom := f (dom w); next_elem := next_elem w; console := console w;
     promises := promises w; next_promise := next_promise w; inflight := inflight w;
     init_promise := init_promise w |}.

(** [console.warn]. *)
Definition warn (x : warning) (w : world) : world :=
  {| inst := inst w; dom := dom w; next_elem := next_elem w; console := console w ++ [x];
     promises := promises w; next_promise := next_promise w; inflight := inflight w;
     init_promise := init_promise w |}.

(** [document.createElement("audio")]. *)
Definition createElement (w : world) : world * nat :=
  let id := next_elem w in
  ({| inst := inst w;
      dom := <[id := {| attrs := ∅; children := []; paused := true; currentTime := 0%float |}]> (dom w);
      next_elem := S id; console := console w;
      promises := promises w; next_promise := next_promise w; inflight := inflight w;
      init_promise := init_promise w |}, id).

Definition setAttribute (id : nat) (k : string) (v : val) : world -> world :=
  with_dom (alter (fun a => {| attrs := <[k := v]> (attrs a); children := children a;
                               paused := paused a; currentTime := currentTime a |}) id).

Definition appendChild (id : nat) (c : source) : world -> world :=
  with_dom (alter (fun a => {| attrs := attrs a; children := children a ++ [c];
                               paused := paused a; currentTime := currentTime a |}) id).

Definition set_paused (id : nat) (b : bool) : world -> world :=
  with_dom (alter (fun a => {| attrs := attrs a; children := children a;
                               paused := b; currentTime := currentTime a |}) id).

Definition set_currentTime (id : nat) (t : float) : world -> world :=
  with_dom (alter (fun a => {| attrs := attrs a; children := children a;
                               paused := paused a; currentTime := t |}) id).

(** ** Promises *)

Definition settle {A} (r : result A) : outcome A :=
  match r with
  | Ok a => Fulfilled a
  | Throw e => Rejected e
  end.

(** [p.then(f)]: the handler runs on the world of the moment the promise is
    fulfilled; what it throws rejects the new promise. *)
Definition then_ {A B} (f : A -> world -> world * result B)
    (p : world * outcome A) : world * outcome B :=
  match p with
  | (w, Fulfilled a) => let (w', r) := f a w in (w', settle r)
  | (w, Rejected e) => (w, Rejected e)
  | (w, Forever) => (w, Forever)
  end.

(** [p.catch(f)]. *)
Definition catch_ {A} (f : error -> world -> world * result A)
    (p : world * outcome A) : world * outcome A :=
  match p with
  | (w, Rejected e) => let (w', r) := f e w in (w', settle r)
  | other => other
  end.

(** ToString, as string concatenation applies it. *)
Definition to_string (h : Host) (v : val) : string :=
  match v with
  | VUndef => "undefined"
  | VNull => "null"
  | VBool true => "true"
  | VBool false => "false"
  | VNum f => numToString h f
  | VStr s => s
  | VAudio _ => "[object HTMLAudioElement]"
  end.

(** ** Making the audio elements *)

Section Pipeline.
Context (h : Host).

(** [Sounder.prototype.__getAudioAttrVal]. *)
Definition __getAudioAttrVal (attr : string) (sound : obj) (s : Sounder) : result val :=
  rbind (validateAttrStrict attr) (fun _ =>
    rbind (hasOwnProperty sound attr) (fun own =>
      Ok (if own then prop sound attr else instance_attr s attr))).

(** [Sounder.prototype.__setAudioElemAttr]. *)
Definition __setAudioElemAttr (attr : string) (sound : obj) (w : world) : world * result obj :=
  match validateAttrStrict attr with
  | Throw e => (w, Throw e)
  | Ok _ =>
      match __validateAudioElemStrict (prop sound "audio") with
      | Throw e => (w, Throw e)
      | Ok id =>
          match __getAudioAttrVal attr sound (inst w) with
          | Throw e => (w, Throw e)
          | Ok attrVal =>
              (if truthy attrVal then setAttribute id attr attrVal w else w, Ok sound)
          end
      end
  end.

(** The [forEach] of [__setAudioElemAttrs]. *)
Fixpoint forEach_attr (l : list string) (sound : obj) (w : world) : world * result unit :=
  match l with
  | [] => (w, Ok tt)
  | attr :: rest =>
      match __setAudioElemAttr attr sound w with
      | (w', Throw e) => (w', Throw e)
      | (w', Ok _) => forEach_attr rest sound w'
      end
  end.

(** [Sounder.prototype.__setAudioElemAttrs]. *)
Definition __setAudioElemAttrs (sound : obj) (w : world) : world * result obj :=
  if negb (__validateAudioElem (prop sound "audio")) then (w, Throw IncorrectAudioElem)
  else match forEach_attr __attrs sound w with
       | (w', Throw e) => (w', Throw e)
       | (w', Ok _) => (w', Ok sound)
       end.

(** [Sounder.prototype.__getSoundPathBase]. *)
Definition __getSoundPathBase (name : val) (s : Sounder) : string :=
  __path s ++ to_string h name ++ ".".

(** [Sounder.prototype.__getSoundPath]. *)
Definition __getSoundPath (name : val) (ext : string) (s : Sounder) : result string :=
  rbind (validateExtStrict ext) (fun _ => Ok (__getSoundPathBase name s ++ ext)).

(** [Sounder.prototype.__makeAudioElemSource]. *)
Definition __makeAudioElemSource (name : val) (ext : string) (s : Sounder) : result source :=
  rbind (validateExtStrict ext) (fun _ =>
    rbind (__getSoundPath name ext s) (fun p =>
      Ok {| src := p; type := "audio/" ++ ext |})).

(** [Sounder.prototype.__getAvailableExts]. *)
Definition __getAvailableExts (name : val) (w : world) : world * outcome (option (list string)) :=
  if negb (truthy name) then (w, Rejected IncorrectSoundName)
  else (w, Fulfilled (__getBrowserExts (navigator h))).

(** [Sounder.prototype.__getAvailableExt]. *)
Definition __getAvailableExt (name : val) (w : world) : world * outcome string :=
  then_ (fun exts w' => (w', __getExtFromAvailableExts h exts)) (__getAvailableExts name w).

(** [Sounder.prototype.__setAudioElemSource]. The promise made here is settled
    by [success] or [error] only; the handler given to [then] is the one place
    that calls them, and the promise [then] returns is dropped. So when
    [__getAvailableExt] rejects, or the handler throws, nothing settles it. *)
Definition __setAudioElemSource (sound : obj) (w : world) : world * outcome obj :=
  match __validateAudioElemStrict (prop sound "audio") with
  | Throw e => (w, Rejected e)
  | Ok id =>
      match __getAvailableExt (prop sound "name") w with
      | (w1, Fulfilled ext) =>
          if negb (truthy (VStr ext)) then (w1, Rejected NoAvailableExtension)
          else match __makeAudioElemSource (prop sound "name") ext (inst w1) with
               | Ok c => (appendChild id c w1, Fulfilled sound)
               | Throw _ => (w1, Forever)
               end
      | (w1, _) => (w1, Forever)
      end
  end.

(** [Sounder.prototype.__makeAudioElem]: the world, the sound as the executor
    leaves it, and what the promise settles to. A sound that has an audio
    element resolves with that element; otherwise the element is created and
    stored in [sound.audio], whatever follows, and the promise resolves with
    the sound, or is rejected with what [__setAudioElemAttrs] throws. *)
Definition __makeAudioElem (sound : obj) (w : world) : world * obj * outcome entry :=
  match prop sound "audio" with
  | VAudio id => (w, sound, Fulfilled (EAudio id))
  | _ =>
      let (w1, id) := createElement w in
      let sound := <["audio" := VAudio id]> sound in
      match __setAudioElemAttrs sound w1 with
      | (w2, Throw e) => (w2, sound, Rejected e)
      | (w2, Ok _) =>
          match __setAudioElemSource sound w2 with
          | (w3, Fulfilled sound') => (w3, sound, Fulfilled (ESound sound'))
          | (w3, Rejected e) => (w3, sound, Rejected e)
          | (w3, Forever) => (w3, sound, Forever)
          end
      end
  end.

(** An item of the store once its executor has run: a description is as the
    executor left it, an element is the same element. *)
Definition written (e : entry) (sound : obj) : entry :=
  match e with
  | ESound _ => ESound sound
  | EAudio id => EAudio id
  end.

(** The [map] of [__makeAudioElemsFromData] over the items of the array: the
    executors run in the order of the items, each on its item as the store
    has it by then. The result is the world, the store, and the promises,
    each with the description its executor found. An index that has nothing
    in the store is a hole of the array, which [map] skips. *)
Fixpoint make_promises (store : list entry) (items : list nat) (w : world)
    : world * list entry * list (obj * outcome entry) :=
  match items with
  | [] => (w, store, [])
  | i :: rest =>
      match store !! i with
      | None => make_promises store rest w
      | Some e =>
          let '(w1, sound, o) := __makeAudioElem (as_obj e) w in
          let '(w2, store2, os) := make_promises (<[i := written e sound]> store) rest w1 in
          (w2, store2, (as_obj e, o) :: os)
      end
  end.

Definition fulfilled_with {A} (o : outcome A) : option A :=
  match o with
  | Fulfilled a => Some a
  | _ => None
  end.

Definition is_forever {A} (o : outcome A) : bool :=
  match o with
  | Forever => true
  | _ => false
  end.

Definition is_rejected {A} (o : outcome A) : bool :=
  match o with
  | Rejected _ => true
  | _ => false
  end.

(** Whether the promise of a sound was resolved by the executor itself. *)
Definition resolved_at_once (p : obj * outcome entry) : bool :=
  __validateAudioElem (prop p.1 "audio").

(** [preparedSounds] once every promise has settled. The handlers push in the
    order the promises are fulfilled: those resolved by their executor come
    first, the others follow after the same number of turns of the job queue,
    each group in the order of the array. *)
Definition preparedSounds (ps : list (obj * outcome entry)) : list entry :=
  omap (λ p, fulfilled_with p.2) (List.filter resolved_at_once ps) ++
  omap (λ p, fulfilled_with p.2) (List.filter (λ p, negb (resolved_at_once p)) ps).

(** The [catch] handlers of the promises that were rejected. *)
Definition warn_rejected (ps : list (obj * outcome entry)) (w : world) : world :=
  foldl (λ w' p, if is_rejected p.2 then warn (WarnMake (prop p.1 "name")) w' else w') w ps.

(** [Sounder.prototype.__makeAudioElemsFromData], on an array: the world, the
    store of the array, and what the returned promise settles to.
    [Promise.all] is fulfilled once every promise is settled, none of them
    being rejected after its [catch]; one that never settles keeps it
    pending. *)
Definition __makeAudioElemsFromData (store : list entry) (items : list nat) (w : world)
    : world * list entry * outcome (list entry) :=
  let '(w1, store1, ps) := make_promises store items w in
  let w2 := warn_rejected ps w1 in
  (w2, store1,
   if existsb (λ p, is_forever p.2) ps then Forever else Fulfilled (preparedSounds ps)).

(** The registry as the array [this.__sounds]: every slot is an item, and no
    two slots are the same object. *)
Definition slots (l : list entry) : list nat := seq 0 (length l).

(** [Sounder.prototype.__updateSounds]. *)
Definition __updateSounds (sounds : list entry) : world -> world :=
  with_inst (fun s => set_sounds (__sounds s ++ sounds) s).

(** The handler of [__makeAudioElems]: [this.__sounds = sounds]. *)
Definition __makeAudioElems_then (sounds : list entry) (w : world) : world * result (list entry) :=
  (with_inst (set_sounds sounds) w, Ok sounds).

(** The call [this.__makeAudioElemsFromData(this.__sounds)]: the store is
    the registry, whose sounds are so updated in place. *)
Definition __makeAudioElemsFromData_this (w : world) : world * outcome (list entry) :=
  let '(w1, store, o) :=
    __makeAudioElemsFromData (__sounds (inst w)) (slots (__sounds (inst w))) w in
  (with_inst (set_sounds store) w1, o).

(** [Sounder.prototype.__makeAudioElems]. *)
Definition __makeAudioElems (w : world) : world * outcome (list entry) :=
  then_ __makeAudioElems_then (__makeAudioElemsFromData_this w).

(** [Sounder.prototype.__getSoundData]. *)
Definition entry_name (e : entry) : val := prop (as_obj e) "name".
Definition entry_audio (e : entry) : val := prop (as_obj e) "audio".

Fixpoint find_sound (soundName : val) (l : list entry) : result entry :=
  match l with
  | [] => Throw SoundDataNotFound
  | e :: rest => if strict_eq (entry_name e) soundName then Ok e else find_sound soundName rest
  end.

Definition __getSoundData (soundName : val) (s : Sounder) : result entry :=
  find_sound soundName (__sounds s).

(** [Sounder.prototype.hasSound]. *)
Definition hasSound (soundName : val) (s : Sounder) : bool :=
  match __getSoundData soundName s with
  | Ok _ => true
  | Throw _ => false
  end.

End Pipeline.

(** ** Preparation and the facade *)

Section Facade.
Context (h : Host).

(** A new promise that is already settled; its handle is returned. *)
Definition new_settled (o : outcome pvalue) (w : world) : world * nat :=
  let p := next_promise w in
  ({| inst := inst w; dom := dom w; next_elem := next_elem w; console := console w;
      promises := <[p := o]> (promises w); next_promise := S p; inflight := inflight w;
      init_promise := init_promise w |}, p).

(** [Promise.resolve(this)]. *)
Definition Promise_resolve_this (w : world) : world * option nat :=
  let (w', p) := new_settled (Fulfilled PThis) w in (w', Some p).

(** A new pending promise for a run whose audio elements settle to [o]. *)
Definition start_run (o : outcome (list entry)) (w : world) : world * nat :=
  let p := next_promise w in
  ({| inst := inst w; dom := dom w; next_elem := next_elem w; console := console w;
      promises := promises w; next_promise := S p;
      inflight := inflight w ++ [{| run_promise := p; run_result := o |}];
      init_promise := init_promise w |}, p).

(** The two handlers of [prepare]. *)
Definition prepare_then (_ : list entry) (w : world) : world * result pvalue :=
  (with_inst (fun s => set_preparing false (set_ready true s)) w, Ok PThis).

Definition prepare_catch (_ : error) (w : world) : world * result pvalue :=
  (warn WarnPrepare (with_inst (fun s => set_preparing false (set_ready false s)) w),
   Ok PUndefined).

(** [Sounder.prototype.prepare], up to its [return]: the promise is returned
    while the run it stands for is in flight. The executors of the promises
    of [__makeAudioElemsFromData] run during the call; the run record keeps
    what the aggregate settles to. *)
Definition prepare (w : world) : world * option nat :=
  if __ready (inst w) then Promise_resolve_this w
  else if __preparing (inst w) then (w, __preparingPromise (inst w))
  else
    let w1 := with_inst (set_preparing true) w in
    let (w2, o) := __makeAudioElemsFromData_this h w1 in
    let (w3, p) := start_run o w2 in
    (with_inst (set_preparingPromise (Some p)) w3, Some p).

(** [Sounder.prototype.wait]. *)
Definition wait (w : world) : world * option nat :=
  if __ready (inst w) then Promise_resolve_this w
  else if __preparing (inst w) then (w, __preparingPromise (inst w))
  else prepare w.

(** The handler [Sounder.init] attaches with [catch]. *)
Definition init_catch (_ : error) (w : world) : world * result pvalue :=
  (warn WarnInit w, Ok PUndefined).

(** The chain [prepare] builds on the aggregate promise:
    [__makeAudioElems().then(...).catch(...)]. *)
Definition prepare_chain (p : world * outcome (list entry)) : world * outcome pvalue :=
  catch_ prepare_catch (then_ prepare_then (then_ __makeAudioElems_then p)).

(** The aggregate promise of run [r] settles to [o]: the chain of [prepare]
    runs and settles the promise of the run, and then the handler of
    [Sounder.init] if it was attached to that promise. *)
Definition deliver (r : run) (o : outcome (list entry)) (w : world) : world :=
  let (w1, res) := prepare_chain (w, o) in
  let w2 :=
    {| inst := inst w1; dom := dom w1; next_elem := next_elem w1; console := console w1;
       promises := <[run_promise r := res]> (promises w1); next_promise := next_promise w1;
       inflight := inflight w1; init_promise := init_promise w1 |} in
  if bool_decide (init_promise w2 = Some (run_promise r))
  then fst (catch_ init_catch (w2, res))
  else w2.

Definition set_inflight (l : list run) (w : world) : world :=
  {| inst := inst w; dom := dom w; next_elem := next_elem w; console := console w;
     promises := promises w; next_promise := next_promise w; inflight := l;
     init_promise := init_promise w |}.

Definition set_init_promise (p : option nat) (w : world) : world :=
  {| inst := inst w; dom := dom w; next_elem := next_elem w; console := console w;
     promises := promises w; next_promise := next_promise w; inflight := inflight w;
     init_promise := p |}.

(** [sounder.prepare().catch(...)] of [Sounder.init]. *)
Definition init_prepare (w : world) : world :=
  let (w', p) := prepare w in set_init_promise p w'.

(** What can happen to an instance between two turns of the event loop. *)
Inductive event :=
| InitPrepares                         (* [Sounder.init] prepares and attaches its handler *)
| CallPrepare                          (* some caller invokes [prepare()] *)
| CallWait                             (* some caller, or a facade method, invokes [wait()] *)
| RunSettles                           (* the aggregate promise of the oldest run settles as computed *)
| RunFails (e : error)                 (* the aggregate step of the oldest run fails unexpectedly *)
| RegistryChanges (l : list entry).    (* [addSounds] or [destruct] assigns the registry *)

Definition step (ev : event) (w : world) : world :=
  match ev with
  | InitPrepares => init_prepare w
  | CallPrepare => fst (prepare w)
  | CallWait => fst (wait w)
  | RunSettles =>
      match inflight w with
      | [] => w
      | r :: rest =>
          match run_result r with
          | Forever => w
          | o => deliver r o (set_inflight rest w)
          end
      end
  | RunFails e =>
      match inflight w with
      | [] => w
      | r :: rest => deliver r (Rejected e) (set_inflight rest w)
      end
  | RegistryChanges l => with_inst (set_sounds l) w
  end.

Definition exec (evs : list event) (w : world) : world := foldl (fun w' ev => step ev w') w evs.

(** A page with a new instance and nothing else. *)
Definition boot (s : Sounder) : world :=
  {| inst := s; dom := ∅; next_elem := 0; console := []; promises := ∅;
     next_promise := 0; inflight := []; init_promise := None |}.

(** [Sounder.init]. *)
Definition init (params : Params) : result world :=
  rbind (new_Sounder (navigator h) params) (fun sounder => Ok (init_prepare (boot sounder))).

(** Waiting for a promise of the facade: the event loop runs until the job
    queue is empty, and a promise that is not settled by then never is. *)
Definition await (p : nat) (w : world) : world * outcome pvalue :=
  let w' := step RunSettles w in
  (w', default Forever (promises w' !! p)).

(** [this.__getSoundData(soundName).audio.play()]. *)
Definition play_then (soundName : val) (_ : pvalue) (w : world) : world * result pvalue :=
  match __getSoundData soundName (inst w) with
  | Throw e => (w, Throw e)
  | Ok e =>
      match entry_audio e with
      | VAudio id =>
          if playRaises h id then (w, Throw HostError)
          else (set_paused id false w, Ok PUndefined)
      | _ => (w, Throw TypeError)
      end
  end.

Definition play_catch (soundName : val) (e : error) (w : world) : world * result pvalue :=
  (warn (WarnPlay soundName e) w, Ok PUndefined).

(** [Sounder.prototype.play]: nothing is returned. *)
Definition play (soundName : val) (w : world) : world * result unit :=
  match wait w with
  | (w1, None) => (w1, Throw TypeError)
  | (w1, Some p) =>
      let (w2, _) := catch_ (play_catch soundName) (then_ (play_then soundName) (await p w1)) in
      (w2, Ok tt)
  end.

(** [this.__getSoundData(soundName).audio.pause()]. *)
Definition pause_then (soundName : val) (_ : pvalue) (w : world) : world * result pvalue :=
  match __getSoundData soundName (inst w) with
  | Throw e => (w, Throw e)
  | Ok e =>
      match entry_audio e with
      | VAudio id =>
          if pauseRaises h id then (w, Throw HostError)
          else (set_paused id true w, Ok PUndefined)
      | _ => (w, Throw TypeError)
      end
  end.

Definition pause_catch (soundName : val) (e : error) (w : world) : world * result pvalue :=
  (warn (WarnPause soundName e) w, Ok PUndefined).

(** [Sounder.prototype.pause]: the promise of the chain is returned, here
    as what it settles to. *)
Definition pause (soundName : val) (w : world) : world * result (outcome pvalue) :=
  match wait w with
  | (w1, None) => (w1, Throw TypeError)
  | (w1, Some p) =>
      let (w2, o) := catch_ (pause_catch soundName) (then_ (pause_then soundName) (await p w1)) in
      (w2, Ok o)
  end.

(** [this.__getSoundData(soundName).audio.currentTime = 0]. *)
Definition stop_then (soundName : val) (_ : pvalue) (w : world) : world * result pvalue :=
  match __getSoundData soundName (inst w) with
  | Throw e => (w, Throw e)
  | Ok e =>
      match entry_audio e with
      | VAudio id => (set_currentTime id 0%float w, Ok PUndefined)
      | _ => (w, Throw TypeError)
      end
  end.

(** [Sounder.prototype.stop]. *)
Definition stop (soundName : val) (w : world) : world * result (outcome pvalue) :=
  match pause soundName w with
  | (w1, Throw e) => (w1, Throw e)
  | (w1, Ok o) =>
      let (w2, o') := then_ (stop_then soundName) (w1, o) in
      (w2, Ok o')
  end.

(** [Sounder.prototype.addSounds], on an array: the world, the store of the
    array, and what the returned promise settles to. *)
Definition addSounds (store : list entry) (items : list nat) (w : world)
    : world * list entry * outcome pvalue :=
  let '(w1, store1, o) := __makeAudioElemsFromData h store items w in
  let (w2, o') := then_ (fun prepared w' => (__updateSounds prepared w', Ok PThis)) (w1, o) in
  (w2, store1, o').

(** [Promise.all] on promises that settle in the order of the array: the
    first rejection rejects it, a promise that never settles keeps it pending,
    and otherwise it is fulfilled with the values. *)
Fixpoint Promise_all {A} (ps : list (outcome A)) : outcome (list A) :=
  match ps with
  | [] => Fulfilled []
  | Rejected e :: _ => Rejected e
  | Fulfilled a :: rest =>
      match Promise_all rest with
      | Fulfilled l => Fulfilled (a :: l)
      | other => other
      end
  | Forever :: rest =>
      match Promise_all rest with
      | Rejected e => Rejected e
      | _ => Forever
      end
  end.

(** The [map] of [stopAll]: [stop] is called for each name in turn. The
    handlers of the calls touch the playback state of elements only, [paused]
    by the first handler and [currentTime] by the second, and log in the order
    of the calls, so running each chain to its end before the next call gives
    the world the job queue gives. *)
Fixpoint stop_each (names : list val) (w : world) : world * result (list (outcome pvalue)) :=
  match names with
  | [] => (w, Ok [])
  | soundName :: rest =>
      match stop soundName w with
      | (w1, Throw e) => (w1, Throw e)
      | (w1, Ok o) =>
          match stop_each rest w1 with
          | (w2, Throw e) => (w2, Throw e)
          | (w2, Ok os) => (w2, Ok (o :: os))
          end
      end
  end.

(** [Sounder.prototype.stopAll]. *)
Definition stopAll (w : world) : world * result (outcome (list pvalue)) :=
  match stop_each (entry_name <$> __sounds (inst w)) w with
  | (w', Throw e) => (w', Throw e)
  | (w', Ok os) => (w', Ok (Promise_all os))
  end.

(** [Sounder.prototype.destruct]. *)
Definition destruct (w : world) : world * result (outcome pvalue) :=
  match stopAll w with
  | (w1, Throw e) => (w1, Throw e)
  | (w1, Ok o) =>
      let (w2, o') := then_ (fun _ w' => (with_inst (set_sounds []) w', Ok PUndefined)) (w1, o) in
      (w2, Ok o')
  end.

End Facade.

(** ** The statements of the specification, and sample inputs *)

Local Open Scope list_scope.



(** An encoding of the catalog: one that has a capability query. *)
Definition in_catalog (ext : string) : Prop := ∃ type, __getAudioType ext = Ok type.

(** The string with its letters A to Z in lower case. *)
Fixpoint fold_case (s : string) : string :=
  match s with
  | EmptyString => EmptyString
  | String c s' => String (lower c) (fold_case s')
  end.

(** The first pair of a priority chain whose test holds. *)
Fixpoint first_match (chain : list (bool * string)) : string :=
  match chain with
  | [] => ""
  | (test, name) :: rest => if test then name else first_match rest
  end.

Definition isChrome (nav : Navigator) : bool :=
  test_ci "chrome" (userAgent nav) && test_ci "google inc." (vendor nav) &&
  negb (isOpera (userAgent nav)).

(** The classifier as the specification orders its chain: Opera first. *)
Definition classifier_spec (nav : Navigator) : string :=
  first_match
    [ (isOpera (userAgent nav), "opera");
      (isChrome nav, "chrome");
      (test_ci "firefox" (userAgent nav), "firefox");
      (test_ci "msie" (userAgent nav), "explorer");
      (test_ci "edge" (userAgent nav), "edge");
      (test_ci "Apple Computer, Inc." (vendor nav), "safari") ].

(** The chain in the order of the source. *)
Definition classifier_chain (nav : Navigator) : list (bool * string) :=
  [ (isChrome nav, "chrome");
    (test_ci "firefox" (userAgent nav), "firefox");
    (isOpera (userAgent nav), "opera");
    (test_ci "msie" (userAgent nav), "explorer");
    (test_ci "edge" (userAgent nav), "edge");
    (test_ci "Apple Computer, Inc." (vendor nav), "safari") ].

(** A spec has no name: the property is absent or is the empty string. *)
Definition name_missing (sound : obj) : Prop :=
  sound !! "name" = None ∨ sound !! "name" = Some (VStr "").

(** A browser that plays MP3 only. *)
Definition mp3_only (type : string) : string :=
  if String.eqb type MP3_TYPE then "maybe" else "".

Definition firefox : Navigator :=
  {| vendor := "";
     userAgent := "Mozilla/5.0 (X11; Linux x86_64; rv:100.0) Gecko/20100101 Firefox/100.0" |}.

(** Opera 9.5 identifying itself as Firefox. *)
Definition opera_as_firefox : Navigator :=
  {| vendor := "";
     userAgent := "Mozilla/5.0 (Windows NT 5.1; U; en; rv:1.8.1) Gecko/20061208 Firefox/2.0.0 Opera 9.50" |}.

Definition sample_host : Host :=
  {| canPlayType := Some mp3_only; navigator := firefox; numToString := fun _ => "0";
     playRaises := fun _ => false; pauseRaises := fun _ => false |}.

(** Firefox on a machine with no codec: every capability query answers no. *)
Definition silent_host : Host :=
  {| canPlayType := Some (fun _ => ""); navigator := firefox; numToString := fun _ => "0";
     playRaises := fun _ => false; pauseRaises := fun _ => false |}.

(** [new Sounder()]: every option left out. *)
Definition no_params : Params :=
  {| sounds := None; path := VUndef; autoplay := VUndef; loop := VUndef;
     muted := VUndef; preload := VUndef; volume := VUndef |}.

(** [{ name: n }]. *)
Definition named (n : string) : obj := {[ "name" := VStr n ]}.

(** [{ sounds: [{ name: "a" }], path: "/s/", loop: true }]. *)
Definition loop_by_default : Params :=
  {| sounds := Some [named "a"]; path := VStr "/s/"; autoplay := VUndef; loop := VBool true;
     muted := VUndef; preload := VUndef; volume := VUndef |}.

(** [new Sounder(loop_by_default)] in Firefox. *)
Definition sample_instance : Sounder :=
  {| __browserExts := Some [OGG; MP3; WAV];
     __sounds := [ESound (extend __getDefSoundParams (named "a"))];
     __path := "/s/";
     __autoplay := VBool false; __loop := VBool true; __muted := VBool false;
     __preload := VBool true; __volume := VNum 1%float;
     __ready := false; __preparing := false; __preparingPromise := None |}.

(** The page once [Sounder.init(loop_by_default)] has prepared its sound. *)
Definition sample_ready : world :=
  exec sample_host [InitPrepares; RunSettles] (boot sample_instance).

(** [sounder.addSounds([{}])] and [sounder.addSounds([{ name: "c" }])] on the
    sample page. *)
Definition added_nameless : world * list entry * outcome pvalue :=
  addSounds sample_host [ESound ∅] [0] sample_ready.
Definition added_c : world * list entry * outcome pvalue :=
  addSounds sample_host [ESound (named "c")] [0] sample_ready.

(** [__makeAudioElem] of the sound "a" on a new page. *)
Definition made_a : world * obj * outcome entry :=
  __makeAudioElem sample_host (named "a") (boot sample_instance).

(** The sound "a" with [loop: true, muted: false] and the element of
    [made_a], and the page of [made_a] with that element muted. *)
Definition looped_a : obj :=
  <["audio" := VAudio 0]> (<["loop" := VBool true]> (<["muted" := VBool false]> (named "a"))).
Definition muted_page : world := setAttribute 0 "muted" (VBool true) made_a.1.1.

(** What [setAttribute] stored on element [id] under [attr], if anything. *)
Definition attribute (w : world) (id : nat) (attr : string) : option val :=
  dom w !! id ≫= λ a, attrs a !! attr.

(** The [<source>] children of element [id]. *)
Definition sources (w : world) (id : nat) : option (list source) :=
  children <$> dom w !! id.

(** What making audio elements leaves alone: the instance and the promises. *)
Definition only_dom (w w' : world) : Prop :=
  inst w' = inst w ∧ promises w' = promises w ∧ next_promise w' = next_promise w ∧
  inflight w' = inflight w ∧ init_promise w' = init_promise w.

(** [w'] has the elements of [w], unchanged, and maybe new ones. *)
Definition extends_dom (w w' : world) : Prop :=
  (next_elem w ≤ next_elem w')%nat ∧ ∀ id, (id < next_elem w)%nat → dom w' !! id = dom w !! id.

(** The value [__getAudioAttrVal] resolves for an attribute: the sound's own
    property if it has one, else the option of the instance. *)
Definition resolved_attr (s : Sounder) (sound : obj) (attr : string) : val :=
  if bool_decide (is_Some (sound !! attr)) then prop sound attr else instance_attr s attr.

(** A sound whose own property [hasOwnProperty] hides the method. *)
Definition hides_method (sound : obj) : Prop := is_Some (sound !! "hasOwnProperty").

(** A sound with no element of its own and the method [hasOwnProperty] in
    reach, and with no name or with no playable encoding in the list of the
    browser. *)
Definition unpreparable (h : Host) (sound : obj) : Prop :=
  __validateAudioElem (prop sound "audio") = false ∧
  sound !! "hasOwnProperty" = None ∧
  (truthy (prop sound "name") = false ∨
   ∃ e, __getExtFromAvailableExts h (__getBrowserExts (navigator h)) = Throw e).

(** The invariant of the preparation state. At most one run is in flight; a
    run is in flight exactly when [__preparing] is set, and then the instance
    is not ready and [__preparingPromise] is the pending promise of that run.
    No settled promise is rejected, and the handler of [Sounder.init] has not
    logged. *)
Definition coalesced (w : world) : Prop :=
  match inflight w with
  | [] => __preparing (inst w) = false
  | [r] => __preparing (inst w) = true ∧ __ready (inst w) = false ∧
           __preparingPromise (inst w) = Some (run_promise r) ∧
           promises w !! run_promise r = None ∧
           (run_promise r < next_promise w)%nat
  | _ => False
  end ∧
  (∀ p, (next_promise w ≤ p)%nat → promises w !! p = None) ∧
  (∀ p o, promises w !! p = Some o → is_rejected o = false) ∧
  WarnInit ∉ console w.

(** The descriptions [sounds] once each has got a new element, the first one
    the element [n]: what [sound.audio = document.createElement("audio")]
    leaves in them when the page has [n] elements. *)
Fixpoint with_elements (n : nat) (sounds : list obj) : list obj :=
  match sounds with
  | [] => []
  | sound :: rest => <["audio" := VAudio n]> sound :: with_elements (S n) rest
  end.

(** A sound that [__makeAudioElem] has to make an element for, and can: it
    owns no element yet, has a name, and has the method [hasOwnProperty] in
    reach. *)
Definition preparable (sound : obj) : Prop :=
  __validateAudioElem (prop sound "audio") = false ∧ truthy (prop sound "name") = true ∧
  sound !! "hasOwnProperty" = None.

(** A spec that registration turns into such a sound: [$.extend] does not
    copy a property whose value is [undefined]. *)
Definition registrable (spec : obj) : Prop :=
  __validateAudioElem (prop spec "audio") = false ∧ truthy (prop spec "name") = true ∧
  prop spec "hasOwnProperty" = VUndef.

(** The element an entry leads to. *)
Definition element (e : entry) : option nat :=
  match e with
  | ESound sound => match prop sound "audio" with VAudio id => Some id | _ => None end
  | EAudio id => Some id
  end.

(** The source [__makeAudioElemSource] builds. *)
Definition source_of (h : Host) (s : Sounder) (name : val) (ext : string) : source :=
  {| src := (__path s ++ to_string h name ++ "." ++ ext)%string;
     type := ("audio/" ++ ext)%string |}.

(** C8 as the specification words it: whenever the promise of a sound
    resolves, the element it leads to has exactly one source, with the path
    and the type derived from the name and from some encoding. *)
Definition one_source_spec (h : Host) (sound : obj) (w : world) : Prop :=
  ∀ w' sound' e, __makeAudioElem h sound w = (w', sound', Fulfilled e) →
    ∃ id ext, element e = Some id ∧
              sources w' id = Some [source_of h (inst w) (prop sound "name") ext].

(** [{ name: "b", hasOwnProperty: null }]. *)
Definition hidden_b : obj := <["hasOwnProperty" := VNull]> (named "b").

(** A page with one audio element, and the sound "d" that brings it. *)
Definition page_with_element : world := (createElement (boot sample_instance)).1.
Definition brought_d : obj := <["audio" := VAudio 0]> (named "d").

(** The element the playback methods act on: that of the first entry with
    that name, if it has one. *)
Definition element_of (s : Sounder) (soundName : val) : option nat :=
  match __getSoundData soundName s with
  | Ok e => match entry_audio e with VAudio id => Some id | _ => None end
  | Throw _ => None
  end.

(** Element [id] after [stop]: rewound, and paused unless [pause()] raised. *)
Definition stopped (h : Host) (id : nat) (a : audio) : audio :=
  {| attrs := attrs a; children := children a;
     paused := if pauseRaises h id then paused a else true;
     currentTime := 0%float |}.

(** What the [catch] of [pause] logs for a name, if anything. *)
Definition pause_warning (h : Host) (s : Sounder) (soundName : val) : list warning :=
  match __getSoundData soundName s with
  | Throw e => [WarnPause soundName e]
  | Ok e =>
      match entry_audio e with
      | VAudio id => if pauseRaises h id then [WarnPause soundName HostError] else []
      | _ => [WarnPause soundName TypeError]
      end
  end.

(** The DOM after [stop] was called for each of [names]. *)
Definition stopped_dom (h : Host) (s : Sounder) (names : list val) (d : gmap nat audio)
    : gmap nat audio :=
  foldl (λ d' soundName,
           match element_of s soundName with
           | Some id => alter (stopped h id) id d'
           | None => d'
           end) d names.

(** An entry whose method [hasOwnProperty] is in reach, and the events that
    come from the code alone and assign such entries only to the registry. *)
Definition plain (e : entry) : Prop := as_obj e !! "hasOwnProperty" = None.

Definition plain_event (ev : event) : Prop :=
  match ev with
  | RunFails _ => False
  | RegistryChanges l => Forall plain l
  | _ => True
  end.

(** The events that come from the code alone: no failure is injected. *)
Definition computed (ev : event) : bool :=
  match ev with
  | RunFails _ => false
  | _ => true
  end.

(** An entry of the registry that leads to an audio element. *)
Definition owns_element (e : entry) : Prop :=
  match e with
  | ESound sound => ∃ id, prop sound "audio" = VAudio id
  | EAudio _ => True
  end.

(** Splits a conjunction into its conjuncts, definitions kept folded. *)
Ltac conjuncts :=
  repeat match goal with
         | |- _ ∧ _ => split
         end.

(** * Format negotiation *)

Lemma canPlayExt_in_catalog h ext :
  in_catalog ext → ∃ b, __canPlayExt h ext = Ok b.
Proof.
  intros [type Htype]. unfold __canPlayExt.
  destruct (canPlayType h) as [query|]; [|by exists false].
  rewrite Htype. simpl. eauto.
Qed.


Lemma catalog_encodings : Forall in_catalog [OGG; MP4; MP3; WAV; AAC].
Proof. repeat constructor; eexists; reflexivity. Qed.

(** What the loop computes, whatever the list. *)
Lemma first_playable_result h exts :
  match first_playable h exts with
  | Ok e => ∃ pre post, exts = pre ++ e :: post ∧ __canPlayExt h e = Ok true ∧
                        Forall (λ x, __canPlayExt h x = Ok false) pre
  | Throw err =>
      (err = NoPlayableExtension ∧ Forall (λ x, __canPlayExt h x = Ok false) exts) ∨
      (∃ pre x post, exts = pre ++ x :: post ∧ __canPlayExt h x = Throw err ∧
                     Forall (λ y, __canPlayExt h y = Ok false) pre)
  end.
Proof.
  induction exts as [|ext rest IH]; simpl.
  - left. by split.
  - destruct (__canPlayExt h ext) as [[|]|e] eqn:Hcan; simpl.
    + exists [], rest. by repeat split.
    + destruct (first_playable h rest) as [e|err].
      * destruct IH as (pre & post & -> & He & Hpre).
        exists (ext :: pre), post. repeat split; [done|by constructor].
      * destruct IH as [[-> Hall]|(pre & x & post & -> & Hx & Hpre)].
        -- left. split; [done|by constructor].
        -- right. exists (ext :: pre), x, post. repeat split; [done|by constructor].
    + right. exists [], ext, rest. by repeat split.
Qed.

(** Two decompositions of a list around its first playable element agree. *)
Lemma earliest_playable_unique h pre1 e1 post1 pre2 e2 post2 :
  pre1 ++ e1 :: post1 = pre2 ++ e2 :: post2 →
  __canPlayExt h e1 = Ok true → Forall (λ x, __canPlayExt h x = Ok false) pre1 →
  __canPlayExt h e2 = Ok true → (∀ x, x ∈ pre2 → __canPlayExt h x ≠ Ok true) →
  e1 = e2.
Proof.
  revert pre2. induction pre1 as [|a pre1 IH]; intros [|b pre2] Heq He1 Hpre1 He2 Hpre2;
    simpl in Heq.
  - by injection Heq.
  - injection Heq as <- _. exfalso. apply (Hpre2 e1); [by left|done].
  - injection Heq as -> _. inversion Hpre1; subst. congruence.
  - injection Heq as <- Heq. inversion Hpre1; subst.
    apply (IH pre2); [done..|]. intros x Hx. apply Hpre2. by right.
Qed.








(** * The browser classifier *)

(** C7, as amended: for every pair of vendor and user-agent strings the
    classifier returns exactly one of chrome, firefox, opera, safari, explorer,
    edge or the empty string, the first match of the chain chrome (Chrome token
    and Google vendor and not Opera), firefox, opera, explorer, edge, safari;
    an Opera match rules out chrome, explorer, edge, safari and the empty
    string, but a Firefox match is checked before it and wins. *)
Theorem getBrowserName_priority_chain nav :
  __getBrowserName nav = first_match (classifier_chain nav) ∧
  __getBrowserName nav ∈ ["chrome"; "firefox"; "opera"; "safari"; "explorer"; "edge"; ""] ∧
  (isOpera (userAgent nav) = true →
   __getBrowserName nav = if test_ci "firefox" (userAgent nav) then "firefox" else "opera") ∧
  (__getBrowserName nav = "chrome" ↔
   test_ci "chrome" (userAgent nav) = true ∧ test_ci "google inc." (vendor nav) = true ∧
   isOpera (userAgent nav) = false).
Proof.
  unfold __getBrowserName, classifier_chain, isChrome, first_match.
  destruct (test_ci "chrome" (userAgent nav)), (test_ci "google inc." (vendor nav)),
    (isOpera (userAgent nav)), (test_ci "firefox" (userAgent nav)),
    (test_ci "msie" (userAgent nav)), (test_ci "edge" (userAgent nav)),
    (test_ci "Apple Computer, Inc." (vendor nav)); cbn [andb negb];
    (split; [reflexivity|]); (split; [set_solver|]); (split; [done|]);
    (split; [try discriminate; done | intros (? & ? & ?); done]).
Qed.

(** C7, as the specification orders the chain (Opera first), fails on a user
    agent that matches both the Firefox and the Opera pattern. *)
Lemma getBrowserName_firefox_before_opera :
  __getBrowserName opera_as_firefox = "firefox" ∧
  classifier_spec opera_as_firefox = "opera" ∧
  __getBrowserName opera_as_firefox ≠ classifier_spec opera_as_firefox.
Proof. repeat split. discriminate. Qed.

(** * Registration and construction *)

Lemma map_result_throws {A B} (f : A → result B) (l : list A) (e : error) :
  (∀ x e', f x = Throw e' → e' = e) →
  (∃ x, x ∈ l ∧ f x = Throw e) →
  map_result f l = Throw e.
Proof.
  intros Honly. induction l as [|a l IH]; intros (x & Hin & Hx).
  - by apply elem_of_nil in Hin.
  - simpl. destruct (f a) as [b|e'] eqn:Ha; simpl.
    + rewrite IH; [done|]. exists x. split; [|done].
      apply elem_of_cons in Hin as [->|Hin]; [congruence|done].
    + f_equal. by apply (Honly a).
Qed.

Lemma map_result_ok {A B} (f : A → result B) (l : list A) (l' : list B) :
  map_result f l = Ok l' → Forall2 (λ x y, f x = Ok y) l l'.
Proof.
  revert l'. induction l as [|a l IH]; intros l'; simpl.
  - intros [= <-]. constructor.
  - destruct (f a) as [b|] eqn:Ha; simpl; [|done].
    destruct (map_result f l) as [bs|]; simpl; [|done].
    intros [= <-]. constructor; [done|by apply IH].
Qed.

Lemma name_missing_falsy sound :
  name_missing sound → truthy (prop sound "name") = false.
Proof. unfold prop. by intros [-> | ->]. Qed.

(** What registration returns when it returns: every spec had a name, and
    every entry is its spec merged over the default sound parameters. *)
Lemma prepareSounds_ok specs prepared :
  __prepareSounds (Some specs) = Ok prepared →
  Forall (λ sound, truthy (prop sound "name") = true) specs ∧
  prepared = extend __getDefSoundParams <$> specs.
Proof.
  unfold __prepareSounds. simpl. destruct specs as [|s specs]; [by intros [= <-]|].
  cbn [length Nat.eqb]. intros H%map_result_ok.
  induction H as [|x y l l' Hxy _ [IH1 IH2]]; [done|].
  destruct (truthy (prop x "name")) eqn:Hname; simpl in Hxy; [|done].
  injection Hxy as <-. split; [by constructor|]. rewrite fmap_cons. by f_equal.
Qed.

(** C9: for every list of sound specs given to registration, if some spec has
    no name (the property is absent or empty), [__prepareSounds] throws the
    error of kind InvalidSoundName, and so does the constructor; no list with
    such a spec is accepted. *)
Theorem prepareSounds_missing_name nav params specs :
  sounds params = Some specs →
  (∃ sound, sound ∈ specs ∧ name_missing sound) →
  __prepareSounds (Some specs) = Throw IncorrectSoundName ∧
  kind_of IncorrectSoundName = InvalidSoundName ∧
  new_Sounder nav params = Throw IncorrectSoundName ∧
  ∀ prepared, __prepareSounds (Some specs) ≠ Ok prepared.
Proof.
  intros Hparams (sound & Hin & Hmissing).
  assert (Hthrow : __prepareSounds (Some specs) = Throw IncorrectSoundName).
  { unfold __prepareSounds. simpl.
    destruct specs as [|s specs]; [by apply elem_of_nil in Hin|].
    cbn [length Nat.eqb]. apply map_result_throws.
    - intros x e'. by destruct (negb _); intros [=].
    - exists sound. split; [done|]. by rewrite name_missing_falsy. }
  repeat split; [done| |congruence].
  unfold new_Sounder. by rewrite Hparams, Hthrow.
Qed.

Lemma prepareSounds_missing_name_witness :
  __prepareSounds (Some [named "a"; ∅; named "b"]) = Throw IncorrectSoundName.
Proof.
  apply (prepareSounds_missing_name firefox
           {| sounds := Some [named "a"; ∅; named "b"]; path := VUndef; autoplay := VUndef;
              loop := VUndef; muted := VUndef; preload := VUndef; volume := VUndef |}
           [named "a"; ∅; named "b"]); [reflexivity|].
  exists ∅. split; [|by left]. apply elem_of_cons. right. apply elem_of_cons. by left.
Defined.

(** The options of the constructor other than [autoplay]: a value of the
    documented type is kept, anything else gives the documented default. *)
Lemma new_Sounder_defaults nav params s :
  new_Sounder nav params = Ok s →
  __loop s = (match loop params with VBool b => VBool b | _ => VBool false end) ∧
  __muted s = (match muted params with VBool b => VBool b | _ => VBool false end) ∧
  __preload s = (match preload params with VBool b => VBool b | _ => VBool true end) ∧
  __volume s = (match volume params with VNum n => VNum n | _ => VNum 1%float end) ∧
  __path s = (match path params with VStr p => p | _ => "" end) ∧
  __autoplay s = (match autoplay params with VStr a => VStr a | _ => VBool false end) ∧
  __ready s = false ∧ __preparing s = false ∧ __preparingPromise s = None.
Proof.
  unfold new_Sounder. destruct (__prepareSounds _); simpl; [|done]. intros [= <-]. simpl.
  repeat split.
  - by destruct (loop params).
  - by destruct (muted params).
  - by destruct (preload params).
  - by destruct (volume params).
  - by destruct (autoplay params).
Qed.

(** With every option left out the instance has the documented defaults. *)
Example new_Sounder_no_params :
  ∃ s, new_Sounder firefox no_params = Ok s ∧
       __autoplay s = VBool false ∧ __loop s = VBool false ∧ __muted s = VBool false ∧
       __preload s = VBool true ∧ __volume s = VNum 1%float ∧ __path s = "" ∧ __sounds s = [].
Proof. eexists. by repeat split. Qed.

(** C6 at its failing input: a boolean [autoplay] is not kept, since the
    constructor tests [typeof params.autoplay] against "string"; the instance
    default is [false] whatever boolean is passed. *)
Theorem new_Sounder_autoplay_boolean nav params s b :
  new_Sounder nav params = Ok s →
  autoplay params = VBool b →
  __autoplay s = VBool false.
Proof.
  intros Hnew Hb. apply new_Sounder_defaults in Hnew as (_ & _ & _ & _ & _ & -> & _).
  by rewrite Hb.
Qed.

Lemma new_Sounder_autoplay_boolean_witness :
  ∃ s, new_Sounder firefox
         {| sounds := None; path := VUndef; autoplay := VBool true; loop := VUndef;
            muted := VUndef; preload := VUndef; volume := VUndef |} = Ok s ∧
       __autoplay s = VBool false.
Proof.
  eexists. split; [reflexivity|].
  by apply (new_Sounder_autoplay_boolean firefox
              {| sounds := None; path := VUndef; autoplay := VBool true; loop := VUndef;
                 muted := VUndef; preload := VUndef; volume := VUndef |} _ true).
Defined.

(** * The attributes of a registered sound *)

Lemma extend_owns target source k :
  is_Some (target !! k) → is_Some (extend target source !! k).
Proof. intros H. unfold extend. apply lookup_union_is_Some. by right. Qed.

(** A sound that went through registration owns each of the five attributes,
    so [__getAudioAttrVal] never reads the option of the instance for it. *)
Lemma registered_sound_owns_attrs specs prepared sound attr s :
  __prepareSounds (Some specs) = Ok prepared →
  sound ∈ prepared →
  attr ∈ __attrs →
  sound !! "hasOwnProperty" = None →
  hasOwnProperty sound attr = Ok true ∧
  __getAudioAttrVal attr sound s = Ok (prop sound attr).
Proof.
  intros [_ ->]%prepareSounds_ok (spec & -> & _)%list_elem_of_fmap Hattr Hmethod.
  assert (Hown : hasOwnProperty (extend __getDefSoundParams spec) attr = Ok true).
  { unfold hasOwnProperty. rewrite Hmethod. f_equal. apply bool_decide_eq_true, extend_owns.
    unfold __attrs in Hattr. repeat (apply elem_of_cons in Hattr as [->|Hattr]; [by eexists|]).
    by apply elem_of_nil in Hattr. }
  split; [done|]. unfold __getAudioAttrVal, validateAttrStrict, validateAttr.
  replace (includes attr __attrs) with true; [simpl; by rewrite Hown|].
  symmetry. apply existsb_exists. exists attr. split; [|apply String.eqb_refl].
  by apply list_elem_of_In.
Qed.

(** C3 at its failing input: the instance is built with [loop: true] and the
    sound "a" gives no [loop] of its own, yet after preparation its audio
    element carries no [loop] attribute: registration merged the fixed default
    [loop: false] into the sound, and that value, not the option of the
    instance, is the one resolved. *)
Theorem instance_default_not_applied :
  ∃ w sound,
    init sample_host loop_by_default = Ok w ∧
    let w' := step sample_host RunSettles w in
    __ready (inst w') = true ∧
    __loop (inst w') = VBool true ∧
    named "a" !! "loop" = None ∧
    __sounds (inst w') = [ESound sound] ∧
    prop sound "audio" = VAudio 0 ∧
    attribute w' 0 "loop" = None ∧
    attribute w' 0 "preload" = Some (VBool true).
Proof. do 2 eexists. split; [reflexivity|]. vm_compute. by repeat split. Qed.

(** * The audio element of a sound *)

Lemma only_dom_refl w : only_dom w w.
Proof. by repeat split. Qed.

Lemma only_dom_trans w1 w2 w3 : only_dom w1 w2 → only_dom w2 w3 → only_dom w1 w3.
Proof. unfold only_dom. intros (?&?&?&?&?) (?&?&?&?&?). repeat split; congruence. Qed.

Lemma extends_dom_refl w : extends_dom w w.
Proof. by split. Qed.

Lemma extends_dom_trans w1 w2 w3 : extends_dom w1 w2 → extends_dom w2 w3 → extends_dom w1 w3.
Proof.
  intros [Hle1 H1] [Hle2 H2]. split; [lia|].
  intros id Hid. rewrite H2 by lia. by apply H1.
Qed.

Lemma sources_setAttribute w id k v id' :
  sources (setAttribute id k v w) id' = sources w id'.
Proof.
  unfold sources, setAttribute. simpl. rewrite lookup_alter.
  case_decide; [subst|done]. by destruct (dom w !! id').
Qed.

Lemma dom_setAttribute_ne w id k v id' :
  id ≠ id' → dom (setAttribute id k v w) !! id' = dom w !! id'.
Proof. intros. unfold setAttribute. simpl. by rewrite lookup_alter_ne. Qed.

Lemma prop_insert_eq (sound : obj) k v : prop (<[k := v]> sound) k = v.
Proof. unfold prop. by rewrite lookup_insert_eq. Qed.

Lemma prop_insert_ne (sound : obj) k k' v : k ≠ k' → prop (<[k := v]> sound) k' = prop sound k'.
Proof. intros. unfold prop. by rewrite lookup_insert_ne. Qed.

Lemma string_app_assoc (a b c : string) : ((a ++ b) ++ c = a ++ b ++ c)%string.
Proof.
  induction a as [|x a IH]; [done|].
  change (String x ((a ++ b) ++ c) = String x (a ++ b ++ c))%string. by rewrite IH.
Qed.

Section PipelineFacts.
Context (h : Host).

(** Setting one attribute touches the attributes of the sound's element only. *)
Lemma setAudioElemAttr_frame attr sound w w' r :
  __setAudioElemAttr attr sound w = (w', r) →
  only_dom w w' ∧ next_elem w' = next_elem w ∧ console w' = console w ∧
  (∀ id, sources w' id = sources w id) ∧
  (∀ id, prop sound "audio" ≠ VAudio id → dom w' !! id = dom w !! id).
Proof.
  unfold __setAudioElemAttr.
  destruct (validateAttrStrict attr); [|by intros [= <- <-]; repeat split].
  destruct (prop sound "audio") as [| | | | |aid];
    simpl; try (by intros [= <- <-]; repeat split).
  destruct (__getAudioAttrVal attr sound (inst w)) as [attrVal|];
    [|by intros [= <- <-]; repeat split].
  destruct (truthy attrVal); intros [= <- <-]; [|by repeat split].
  repeat split.
  - intros id. apply sources_setAttribute.
  - intros id Hid. apply dom_setAttribute_ne. congruence.
Qed.

Lemma forEach_attr_frame l sound w w' r :
  forEach_attr l sound w = (w', r) →
  only_dom w w' ∧ next_elem w' = next_elem w ∧ console w' = console w ∧
  (∀ id, sources w' id = sources w id) ∧
  (∀ id, prop sound "audio" ≠ VAudio id → dom w' !! id = dom w !! id).
Proof.
  revert w. induction l as [|attr rest IH]; intros w; simpl.
  - intros [= <- <-]. by repeat split.
  - destruct (__setAudioElemAttr attr sound w) as [w1 [s1|e]] eqn:H1;
      apply setAudioElemAttr_frame in H1 as (Ho & Hn & Hc & Hs & Hd).
    + intros (Ho' & Hn' & Hc' & Hs' & Hd')%IH. conjuncts.
      * by apply (only_dom_trans w w1 w').
      * congruence.
      * congruence.
      * intros id. by rewrite Hs'.
      * intros id Hid. by rewrite Hd', Hd.
    + by intros [= <- <-].
Qed.

Lemma setAudioElemAttrs_frame sound w w' r :
  __setAudioElemAttrs sound w = (w', r) →
  only_dom w w' ∧ next_elem w' = next_elem w ∧ console w' = console w ∧
  (∀ id, sources w' id = sources w id) ∧
  (∀ id, prop sound "audio" ≠ VAudio id → dom w' !! id = dom w !! id).
Proof.
  unfold __setAudioElemAttrs. destruct (negb _).
  - intros [= <- <-]. by repeat split; try apply only_dom_refl.
  - destruct (forEach_attr __attrs sound w) as [w1 [[]|e]] eqn:H1;
      intros [= <- <-]; by apply forEach_attr_frame in H1.
Qed.

(** With a valid element and the method [hasOwnProperty] in reach, the five
    attributes raise no error. *)
Lemma setAudioElemAttrs_ok sound w id :
  prop sound "audio" = VAudio id →
  sound !! "hasOwnProperty" = None →
  ∃ w', __setAudioElemAttrs sound w = (w', Ok sound).
Proof.
  intros Haudio Hmethod. unfold __setAudioElemAttrs, __attrs. rewrite Haudio. simpl.
  unfold __setAudioElemAttr, __getAudioAttrVal, hasOwnProperty.
  rewrite Haudio, Hmethod. simpl.
  repeat match goal with
         | |- context [truthy ?v] => destruct (truthy v); simpl
         end; eauto.
Qed.

(** With the method hidden by an own property, the first attribute raises
    and nothing is written. *)
Lemma setAudioElemAttrs_hidden sound w id :
  prop sound "audio" = VAudio id →
  hides_method sound →
  __setAudioElemAttrs sound w = (w, Throw TypeError).
Proof.
  intros Haudio [v Hv]. unfold __setAudioElemAttrs, __attrs. rewrite Haudio. simpl.
  unfold __setAudioElemAttr, __getAudioAttrVal, hasOwnProperty.
  by rewrite Haudio, Hv.
Qed.

Lemma sources_appendChild w id c :
  sources (appendChild id c w) id = (λ l, l ++ [c]) <$> sources w id.
Proof.
  unfold sources, appendChild. simpl. rewrite lookup_alter_eq.
  by destruct (dom w !! id).
Qed.

Lemma dom_appendChild_ne w id c id' :
  id ≠ id' → dom (appendChild id c w) !! id' = dom w !! id'.
Proof. intros. unfold appendChild. simpl. by rewrite lookup_alter_ne. Qed.

(** The encoding the negotiation returns is one the browser can play, and so
    is not the empty string. *)
Lemma getExt_playable exts ext :
  __getExtFromAvailableExts h exts = Ok ext →
  __canPlayExt h ext = Ok true ∧ truthy (VStr ext) = true.
Proof.
  unfold __getExtFromAvailableExts. destruct exts as [exts|]; [|done].
  destruct (Nat.eqb _ _); [done|]. intros Hfirst.
  pose proof (first_playable_result h exts) as Hres. rewrite Hfirst in Hres.
  destruct Hres as (pre & post & _ & Hcan & _). split; [done|].
  destruct ext; [|done]. unfold __canPlayExt in Hcan.
  by destruct (canPlayType h).
Qed.

(** When [__setAudioElemSource] is fulfilled, it appended one source, built
    from the path prefix, the name and the negotiated encoding. *)
Lemma setAudioElemSource_fulfilled sound w w' sound' :
  __setAudioElemSource h sound w = (w', Fulfilled sound') →
  ∃ id ext,
    prop sound "audio" = VAudio id ∧
    truthy (prop sound "name") = true ∧
    __getExtFromAvailableExts h (__getBrowserExts (navigator h)) = Ok ext ∧
    sound' = sound ∧
    w' = appendChild id
           {| src := (__path (inst w) ++ to_string h (prop sound "name") ++ "." ++ ext)%string;
              type := ("audio/" ++ ext)%string |} w.
Proof.
  unfold __setAudioElemSource.
  destruct (prop sound "audio") as [| | | | |id]; simpl; try done.
  unfold __getAvailableExt, __getAvailableExts.
  destruct (truthy (prop sound "name")); simpl; [|done].
  destruct (__getExtFromAvailableExts h _) as [ext|] eqn:Hext; simpl; [|done].
  destruct (String.eqb ext ""); simpl; [done|].
  unfold __makeAudioElemSource, __getSoundPath, validateExtStrict.
  destruct (validateExt ext); simpl; [|done].
  intros [= <- <-]. exists id, ext. repeat split.
  unfold __getSoundPathBase. by rewrite !string_app_assoc.
Qed.

(** [__setAudioElemSource] never rejects for a sound with a valid element: it
    is fulfilled, or it stays pending for ever. *)
Lemma setAudioElemSource_settles sound w id :
  prop sound "audio" = VAudio id →
  ∃ w' o, __setAudioElemSource h sound w = (w', o) ∧ is_rejected o = false.
Proof.
  intros Haudio. unfold __setAudioElemSource. rewrite Haudio. simpl.
  unfold __getAvailableExt, __getAvailableExts.
  destruct (truthy (prop sound "name")); simpl; [|by eauto].
  destruct (__getExtFromAvailableExts h _) as [ext|] eqn:Hext; simpl; [|by eauto].
  apply getExt_playable in Hext as [_ Hext]. simpl in Hext. rewrite Hext. simpl.
  destruct (__makeAudioElemSource h _ _ _); by eauto.
Qed.

Lemma setAudioElemSource_frame sound w w' o :
  __setAudioElemSource h sound w = (w', o) →
  only_dom w w' ∧ next_elem w' = next_elem w ∧ console w' = console w ∧
  (∀ id, prop sound "audio" ≠ VAudio id → dom w' !! id = dom w !! id).
Proof.
  unfold __setAudioElemSource.
  destruct (prop sound "audio") as [| | | | |aid]; simpl;
    try (by intros [= <- <-]; conjuncts; try apply only_dom_refl).
  unfold __getAvailableExt, __getAvailableExts.
  destruct (truthy (prop sound "name")); simpl;
    [|by intros [= <- <-]; conjuncts; try apply only_dom_refl].
  destruct (__getExtFromAvailableExts h _) as [ext|]; simpl;
    [|by intros [= <- <-]; conjuncts; try apply only_dom_refl].
  destruct (negb _); [by intros [= <- <-]; conjuncts; try apply only_dom_refl|].
  destruct (__makeAudioElemSource h _ _ _) as [c|];
    intros [= <- <-]; conjuncts; try apply only_dom_refl; try done.
  intros id Hid. apply dom_appendChild_ne. congruence.
Qed.

(** The executor of a sound that brings no element. *)
Lemma makeAudioElem_new sound w :
  __validateAudioElem (prop sound "audio") = false →
  __makeAudioElem h sound w =
    let sound0 := <["audio" := VAudio (next_elem w)]> sound in
    match __setAudioElemAttrs sound0 (createElement w).1 with
    | (w2, Throw e) => (w2, sound0, Rejected e)
    | (w2, Ok _) =>
        match __setAudioElemSource h sound0 w2 with
        | (w3, Fulfilled sound') => (w3, sound0, Fulfilled (ESound sound'))
        | (w3, Rejected e) => (w3, sound0, Rejected e)
        | (w3, Forever) => (w3, sound0, Forever)
        end
    end.
Proof. intros Hnew. unfold __makeAudioElem. by destruct (prop sound "audio"). Qed.

(** The executor of a sound that brings its element. *)
Lemma makeAudioElem_brought sound w id :
  prop sound "audio" = VAudio id →
  __makeAudioElem h sound w = (w, sound, Fulfilled (EAudio id)).
Proof. intros Haudio. unfold __makeAudioElem. by rewrite Haudio. Qed.

(** Making the element of one sound: the instance and the promises are left
    alone, nothing is logged, and the elements that existed stay as they are.
    The sound gets its element whatever follows, and the promise is rejected
    only for a sound that hides the method [hasOwnProperty]. *)
Lemma makeAudioElem_frame sound w w' sound' o :
  __makeAudioElem h sound w = (w', sound', o) →
  only_dom w w' ∧ extends_dom w w' ∧ console w' = console w ∧
  sound' = (if __validateAudioElem (prop sound "audio") then sound
            else <["audio" := VAudio (next_elem w)]> sound) ∧
  (∀ e, o = Rejected e →
        e = TypeError ∧ hides_method sound ∧
        __validateAudioElem (prop sound "audio") = false) ∧
  (∀ e, o = Fulfilled e → (∃ id, e = EAudio id) ∨ e = ESound sound').
Proof.
  destruct (__validateAudioElem (prop sound "audio")) eqn:Hown.
  - destruct (prop sound "audio") as [| | | | |id] eqn:Haudio; try discriminate Hown.
    rewrite (makeAudioElem_brought sound w id Haudio). intros [= <- <- <-].
    conjuncts; try done; try apply only_dom_refl. intros e [= <-]. left. by exists id.
  - rewrite makeAudioElem_new by done. cbn zeta. unfold createElement. cbn [fst].
    set (w1 := {| inst := inst w; dom := _ |}).
    set (sound0 := <["audio" := VAudio (next_elem w)]> sound).
    assert (Haudio : prop sound0 "audio" = VAudio (next_elem w)) by apply prop_insert_eq.
    assert (Hmethod : sound0 !! "hasOwnProperty" = sound !! "hasOwnProperty")
      by by apply lookup_insert_ne.
    destruct (sound !! "hasOwnProperty") as [v|] eqn:Hv.
    + rewrite (setAudioElemAttrs_hidden sound0 w1 _ Haudio) by by exists v.
      intros [= <- <- <-]. conjuncts; try done.
      * split; [simpl; lia|]. intros id Hid. simpl. apply lookup_insert_ne. lia.
      * intros e [= <-]. split; [done|]. split; [by exists v|done].
    + destruct (setAudioElemAttrs_ok sound0 w1 _ Haudio Hmethod) as [w2 Hattrs].
      rewrite Hattrs.
      apply setAudioElemAttrs_frame in Hattrs as (Ho2 & Hn2 & Hc2 & _ & Hd2).
      destruct (setAudioElemSource_settles sound0 w2 _ Haudio) as (w3 & o3 & Hsrc & Hrej).
      rewrite Hsrc.
      assert (Hvalue : ∀ x, o3 = Fulfilled x → x = sound0).
      { intros x ->. by apply setAudioElemSource_fulfilled in Hsrc as (? & ? & _ & _ & _ & ? & _). }
      apply setAudioElemSource_frame in Hsrc as (Ho3 & Hn3 & Hc3 & Hd3).
      assert (Hframe : only_dom w w3 ∧ extends_dom w w3 ∧ console w3 = console w).
      { conjuncts.
        - apply (only_dom_trans w w1 w3); [by repeat split|].
          by apply (only_dom_trans w1 w2 w3).
        - split; [rewrite Hn3, Hn2; simpl; lia|].
          intros id Hid. rewrite Hd3, Hd2 by (rewrite Haudio; intros [= Heq]; lia).
          simpl. apply lookup_insert_ne. lia.
        - by rewrite Hc3, Hc2. }
      destruct Hframe as (? & ? & ?).
      destruct o3 as [x| |]; [| done |]; intros [= <- <- <-]; conjuncts; try done.
      intros e [= <-]. right. by rewrite (Hvalue x).
Qed.

(** C8, as amended: for every sound that preparation succeeds for, if the
    sound brought no media element, the promise resolves with the sound,
    whose new element has exactly one source: its path is the path prefix of
    the instance, the sound name, a dot and the negotiated playable encoding,
    and its MIME type is "audio/" followed by that encoding; if the sound
    brought an element, the promise resolves with that element and nothing is
    done to it or to the page: no source is attached. *)
Theorem makeAudioElem_one_source sound w w' sound' e :
  __makeAudioElem h sound w = (w', sound', Fulfilled e) →
  match prop sound "audio" with
  | VAudio id => e = EAudio id ∧ w' = w ∧ sound' = sound
  | _ =>
      ∃ ext,
        __getExtFromAvailableExts h (__getBrowserExts (navigator h)) = Ok ext ∧
        __canPlayExt h ext = Ok true ∧
        sound' = <["audio" := VAudio (next_elem w)]> sound ∧
        e = ESound sound' ∧
        sources w' (next_elem w) =
          Some [ {| src := (__path (inst w) ++ to_string h (prop sound "name") ++ "." ++ ext)%string;
                    type := ("audio/" ++ ext)%string |} ] ∧
        ∀ id, (id < next_elem w)%nat → dom w' !! id = dom w !! id
  end.
Proof.
  assert (Hnew : __validateAudioElem (prop sound "audio") = false →
    __makeAudioElem h sound w = (w', sound', Fulfilled e) →
    ∃ ext,
      __getExtFromAvailableExts h (__getBrowserExts (navigator h)) = Ok ext ∧
      __canPlayExt h ext = Ok true ∧
      sound' = <["audio" := VAudio (next_elem w)]> sound ∧
      e = ESound sound' ∧
      sources w' (next_elem w) =
        Some [ {| src := (__path (inst w) ++ to_string h (prop sound "name") ++ "." ++ ext)%string;
                  type := ("audio/" ++ ext)%string |} ] ∧
      ∀ id, (id < next_elem w)%nat → dom w' !! id = dom w !! id).
  { intros Hown Hmake.
    pose proof (makeAudioElem_frame _ _ _ _ _ Hmake) as (_ & [_ Hkept] & _ & _ & _).
    revert Hmake. rewrite makeAudioElem_new by done. cbn zeta. unfold createElement.
    cbn [fst]. set (w1 := {| inst := inst w; dom := _ |}).
    set (sound0 := <["audio" := VAudio (next_elem w)]> sound).
    assert (Haudio : prop sound0 "audio" = VAudio (next_elem w)) by apply prop_insert_eq.
    assert (Hname : prop sound0 "name" = prop sound "name") by by apply prop_insert_ne.
    destruct (__setAudioElemAttrs sound0 w1) as [w2 [s2|]] eqn:Hattrs; [|done].
    apply setAudioElemAttrs_frame in Hattrs as ((Hi2 & _) & _ & _ & Hs2 & _).
    destruct (__setAudioElemSource h sound0 w2) as [w3 [sound1| |]] eqn:Hsrc; [|done..].
    intros [= <- <- <-].
    apply setAudioElemSource_fulfilled in Hsrc as (id & ext & Hid & _ & Hext & -> & ->).
    rewrite Haudio in Hid. injection Hid as <-. exists ext.
    split; [done|]. split; [by apply (getExt_playable _ _ Hext)|].
    split; [done|]. split; [done|]. split; [|done].
    rewrite sources_appendChild, Hs2, Hi2, Hname. unfold sources. simpl.
    by rewrite lookup_insert_eq. }
  destruct (prop sound "audio") as [| | | | |id] eqn:Haudio; try (by apply Hnew).
  rewrite (makeAudioElem_brought sound w id Haudio). by intros [= <- <- <-].
Qed.

End PipelineFacts.

(** The sound "a" in a browser that plays MP3 only, on a new page whose
    instance has the path prefix "/s/". *)
Lemma makeAudioElem_one_source_witness :
  sources made_a.1.1 0 = Some [ {| src := "/s/a.mp3"; type := "audio/mp3" |} ].
Proof.
  assert (Hmade : __makeAudioElem sample_host (named "a") (boot sample_instance) =
                  (made_a.1.1, <["audio" := VAudio 0]> (named "a"),
                   Fulfilled (ESound (<["audio" := VAudio 0]> (named "a")))))
    by (vm_compute; reflexivity).
  pose proof (makeAudioElem_one_source sample_host (named "a") (boot sample_instance)
                _ _ _ Hmade) as Hone.
  assert (Hnone : prop (named "a") "audio" = VUndef) by reflexivity.
  rewrite Hnone in Hone. destruct Hone as (ext & Hext & _ & _ & _ & Hsrc & _).
  vm_compute in Hext. injection Hext as <-. exact Hsrc.
Defined.

(** C8, as the specification states it, fails for a sound that brings its
    media element: the promise resolves with that element at once, and the
    element is left without a source. *)
Lemma makeAudioElem_brought_element_no_source :
  __makeAudioElem sample_host brought_d page_with_element =
    (page_with_element, brought_d, Fulfilled (EAudio 0)) ∧
  sources page_with_element 0 = Some [] ∧
  ¬ one_source_spec sample_host brought_d page_with_element.
Proof.
  assert (Hmake : __makeAudioElem sample_host brought_d page_with_element =
                  (page_with_element, brought_d, Fulfilled (EAudio 0)))
    by (vm_compute; reflexivity).
  assert (Hsrc : sources page_with_element 0 = Some []) by (vm_compute; reflexivity).
  split; [done|]. split; [done|]. intros Hspec.
  destruct (Hspec _ _ _ Hmake) as (id & ext & [= <-] & Hone).
  rewrite Hsrc in Hone. discriminate Hone.
Qed.

(** ** The promises of an array *)

Section ArrayFacts.
Context (h : Host).

(** What the [catch] handlers log: one warning for each rejected promise. *)
Lemma warn_rejected_console ps w :
  only_dom w (warn_rejected ps w) ∧
  dom (warn_rejected ps w) = dom w ∧ next_elem (warn_rejected ps w) = next_elem w ∧
  console (warn_rejected ps w) =
    console w ++ ((λ p, WarnMake (prop p.1 "name")) <$>
                  List.filter (λ p : obj * outcome entry, is_rejected p.2) ps).
Proof.
  unfold warn_rejected. revert w. induction ps as [|p ps IH]; intros w; cbn [foldl List.filter].
  - rewrite app_nil_r. by conjuncts.
  - destruct (is_rejected p.2); cbv iota.
    + destruct (IH (warn (WarnMake (prop p.1 "name")) w)) as (Ho & Hd & Hn & Hc).
      rewrite Hc, fmap_cons, (cons_middle _ (console w)), app_assoc.
      destruct Ho as (? & ? & ? & ? & ?). by conjuncts.
    + apply IH.
Qed.

Lemma warn_rejected_none ps w :
  Forall (λ p, is_rejected p.2 = false) ps → warn_rejected ps w = w.
Proof.
  unfold warn_rejected. intros Hps. revert w.
  induction Hps as [|p ps Hp _ IH]; intros w; simpl; [done|]. by rewrite Hp.
Qed.

Lemma make_promises_frame items store w w' store' ps :
  make_promises h store items w = (w', store', ps) →
  only_dom w w' ∧ extends_dom w w' ∧ console w' = console w ∧
  length store' = length store.
Proof.
  revert store w w' store' ps.
  induction items as [|i rest IH]; intros store w w' store' ps; cbn [make_promises].
  - intros [= <- <- <-]. conjuncts; try done; apply only_dom_refl.
  - destruct (store !! i) as [e|]; [|by apply IH].
    destruct (__makeAudioElem h (as_obj e) w) as [[w1 sound] o] eqn:Hone.
    destruct (make_promises h (<[i:=written e sound]> store) rest w1)
      as [[w2 store2] os] eqn:Hrest.
    intros [= <- <- <-].
    apply makeAudioElem_frame in Hone as (Ho1 & He1 & Hc1 & _).
    apply IH in Hrest as (Ho2 & He2 & Hc2 & Hl2). conjuncts.
    + by apply (only_dom_trans w w1 w2).
    + by apply (extends_dom_trans w w1 w2).
    + congruence.
    + by rewrite Hl2, length_insert.
Qed.

(** The aggregate step leaves the instance and the promises alone and is
    never rejected; all it logs is the warning of its [catch], once for each
    sound whose promise was rejected. *)
Lemma makeAudioElemsFromData_frame items store w w' store' o :
  __makeAudioElemsFromData h store items w = (w', store', o) →
  only_dom w w' ∧ extends_dom w w' ∧ is_rejected o = false ∧
  length store' = length store ∧
  ∃ names, console w' = console w ++ (WarnMake <$> names).
Proof.
  unfold __makeAudioElemsFromData.
  destruct (make_promises h store items w) as [[w1 store1] ps] eqn:Hps.
  apply make_promises_frame in Hps as (Ho & He & Hc & Hl).
  destruct (warn_rejected_console ps w1) as (Ho2 & Hd2 & Hn2 & Hc2).
  intros [= <- <- <-]. conjuncts.
  - by apply (only_dom_trans w w1 _).
  - destruct He as [Hle Hsame]. split; [by rewrite Hn2|]. intros id Hid.
    rewrite Hd2. by apply Hsame.
  - by destruct (existsb _ _).
  - done.
  - exists ((λ p : obj * outcome entry, prop p.1 "name") <$>
            List.filter (λ p, is_rejected p.2) ps).
    rewrite Hc2, Hc. f_equal. by rewrite <- list_fmap_compose.
Qed.

(** The call on the registry: besides, the registry keeps its length. *)
Lemma makeAudioElemsFromData_this_frame w w' o :
  __makeAudioElemsFromData_this h w = (w', o) →
  promises w' = promises w ∧ next_promise w' = next_promise w ∧
  inflight w' = inflight w ∧ init_promise w' = init_promise w ∧
  __ready (inst w') = __ready (inst w) ∧ __preparing (inst w') = __preparing (inst w) ∧
  __preparingPromise (inst w') = __preparingPromise (inst w) ∧
  extends_dom w w' ∧ is_rejected o = false ∧
  length (__sounds (inst w')) = length (__sounds (inst w)) ∧
  ∃ names, console w' = console w ++ (WarnMake <$> names).
Proof.
  unfold __makeAudioElemsFromData_this.
  destruct (__makeAudioElemsFromData h _ _ w) as [[w1 store] o1] eqn:Hmake.
  apply makeAudioElemsFromData_frame in Hmake
    as ((Hi & Hp & Hn & Hf & Hinit) & He & Hrej & Hl & Hlog).
  intros [= <- <-]. simpl. rewrite Hi. by conjuncts.
Qed.

End ArrayFacts.

(** * Preparation: coalescing and failure *)

Section PreparationFacts.
Context (h : Host).

(** The chain of the model, put on the aggregate promise at the moment of the
    call, is the expression [prepare] returns in the source. *)
Lemma prepare_chain_source w :
  prepare_chain (__makeAudioElemsFromData_this h w) =
  catch_ prepare_catch (then_ prepare_then (__makeAudioElems h w)).
Proof. reflexivity. Qed.

(** The chain of [prepare] never yields a rejected promise. *)
Lemma prepare_chain_not_rejected w o : is_rejected (prepare_chain (w, o)).2 = false.
Proof. by destruct o. Qed.

(** What the chain does once the aggregate promise is settled. *)
Lemma prepare_chain_settled w o :
  is_forever o = false →
  ∃ w' v, prepare_chain (w, o) = (w', Fulfilled v) ∧
    __preparing (inst w') = false ∧
    __ready (inst w') = (if is_rejected o then false else true) ∧
    promises w' = promises w ∧ next_promise w' = next_promise w ∧
    inflight w' = inflight w ∧ init_promise w' = init_promise w ∧
    dom w' = dom w ∧
    console w' = (if is_rejected o then console w ++ [WarnPrepare] else console w).
Proof. destruct o; [|  |done]; intros _; by do 2 eexists. Qed.

Lemma deliver_coalesced r o w :
  is_forever o = false →
  inflight w = [] →
  (run_promise r < next_promise w)%nat →
  (∀ p, (next_promise w ≤ p)%nat → promises w !! p = None) →
  (∀ p o', promises w !! p = Some o' → is_rejected o' = false) →
  WarnInit ∉ console w →
  coalesced (deliver r o w) ∧
  __ready (inst (deliver r o w)) = (if is_rejected o then false else true).
Proof.
  intros Ho Hin Hr Hnext Hrej Hlog. unfold deliver.
  destruct (prepare_chain_settled w o Ho)
    as (w1 & v & -> & Hprep & Hready & Hp & Hn & Hi & Hinit & _ & Hc).
  set (w2 := {| inst := inst w1; dom := _ |}).
  assert (Hw2 : coalesced w2 ∧ __ready (inst w2) = (if is_rejected o then false else true)).
  { split; [|done]. unfold coalesced. simpl. rewrite Hi, Hin, Hp, Hn. conjuncts.
    - done.
    - intros p Hle. rewrite lookup_insert_ne by lia. by apply Hnext.
    - intros p o'. rewrite lookup_insert. case_decide; [by intros [= <-]|apply Hrej].
    - rewrite Hc. destruct (is_rejected o); [|done].
      rewrite elem_of_app, list_elem_of_singleton. by intros [?|?]. }
  by destruct (bool_decide _).
Qed.

Lemma new_settled_coalesced w v :
  coalesced w → coalesced (new_settled (Fulfilled v) w).1.
Proof.
  intros (Hrun & Hnext & Hrej & Hlog). unfold coalesced. simpl. conjuncts.
  - destruct (inflight w) as [|r [|]]; [done| |done].
    destruct Hrun as (? & ? & ? & ? & ?). conjuncts; try done; [|lia].
    rewrite lookup_insert_ne by lia. done.
  - intros p Hle. rewrite lookup_insert_ne by lia. apply Hnext. lia.
  - intros p o. rewrite lookup_insert. case_decide; [by intros [= <-]|apply Hrej].
  - done.
Qed.

(** Starting a run from an idle instance that is not ready. *)
Lemma prepare_starts w :
  coalesced w →
  __ready (inst w) = false → __preparing (inst w) = false →
  ∃ w' o, prepare h w = (w', Some (next_promise w)) ∧
          inflight w' = [{| run_promise := next_promise w; run_result := o |}] ∧
          __preparing (inst w') = true ∧ __ready (inst w') = false ∧
          init_promise w' = init_promise w ∧ coalesced w'.
Proof.
  intros (Hrun & Hnext & Hrej & Hlog) Hready Hprep. unfold prepare.
  rewrite Hready, Hprep.
  destruct (__makeAudioElemsFromData_this h _) as [w2 o] eqn:Hmake.
  apply makeAudioElemsFromData_this_frame in Hmake
    as (Hp & Hn & Hfl & Hinit & Hr2 & Hp2 & _ & _ & _ & _ & names & Hc).
  simpl in Hp, Hn, Hfl, Hinit, Hr2, Hp2, Hc.
  assert (Hidle : inflight w = []).
  { destruct (inflight w) as [|r [|]]; [done| |done].
    destruct Hrun as (? & _). congruence. }
  unfold start_run. rewrite Hn. do 2 eexists. split; [reflexivity|].
  simpl. rewrite Hfl, Hidle, Hr2, Hp2. simpl. conjuncts; try done.
  unfold coalesced. simpl. rewrite ?Hfl, ?Hidle, ?Hp, ?Hc, ?Hr2, ?Hp2. simpl.
  conjuncts; try done.
  - apply Hnext. lia.
  - lia.
  - intros p Hle. apply Hnext. lia.
  - rewrite elem_of_app, list_elem_of_fmap. intros [?|(name & [=] & _)]. done.
Qed.

Lemma prepare_keeps_coalesced w : coalesced w → coalesced (prepare h w).1.
Proof.
  intros Hw. destruct (__ready (inst w)) eqn:Hready.
  - unfold prepare, Promise_resolve_this. rewrite Hready.
    pose proof (new_settled_coalesced w PThis Hw) as Hnew.
    by destruct (new_settled (Fulfilled PThis) w).
  - destruct (__preparing (inst w)) eqn:Hprep.
    + unfold prepare. by rewrite Hready, Hprep.
    + destruct (prepare_starts w Hw Hready Hprep) as (w' & o & -> & _ & _ & _ & _ & Hw').
      done.
Qed.

Lemma wait_is_prepare w : wait h w = prepare h w.
Proof.
  unfold wait. destruct (__ready (inst w)) eqn:Hready; [by unfold prepare; rewrite Hready|].
  destruct (__preparing (inst w)) eqn:Hprep; [|done].
  unfold prepare. by rewrite Hready, Hprep.
Qed.

Lemma coalesced_init_promise w p : coalesced w → coalesced (set_init_promise p w).
Proof. done. Qed.

Lemma step_coalesced ev w : coalesced w → coalesced (step h ev w).
Proof.
  intros Hw. destruct ev as [| | | |e|l]; simpl.
  - unfold init_prepare. pose proof (prepare_keeps_coalesced w Hw) as Hp.
    destruct (prepare h w) as [w' p]. by apply coalesced_init_promise.
  - by apply prepare_keeps_coalesced.
  - rewrite wait_is_prepare. by apply prepare_keeps_coalesced.
  - pose proof Hw as (Hrun & Hnext & Hrej & Hlog).
    destruct (inflight w) as [|r [|]] eqn:Hin; [done| |done].
    destruct Hrun as (_ & _ & _ & _ & Hlt).
    destruct (run_result r) as [sounds|e|] eqn:Hres; [| |done].
    + by apply deliver_coalesced.
    + by apply deliver_coalesced.
  - pose proof Hw as (Hrun & Hnext & Hrej & Hlog).
    destruct (inflight w) as [|r [|]] eqn:Hin; [done| |done].
    destruct Hrun as (_ & _ & _ & _ & Hlt). by apply deliver_coalesced.
  - done.
Qed.

Lemma exec_coalesced evs w : coalesced w → coalesced (exec h evs w).
Proof.
  revert w. induction evs as [|ev evs IH]; intros w Hw; [done|].
  simpl. apply IH. by apply step_coalesced.
Qed.

(** A new instance, on its page, satisfies the invariant. *)
Lemma boot_coalesced nav params s :
  new_Sounder nav params = Ok s → coalesced (boot s).
Proof.
  intros (_ & _ & _ & _ & _ & _ & _ & Hprep & _)%new_Sounder_defaults.
  unfold coalesced. simpl. conjuncts; try done. apply not_elem_of_nil.
Qed.

(** Once ready, always ready. *)
Lemma step_ready ev w :
  coalesced w → __ready (inst w) = true → __ready (inst (step h ev w)) = true.
Proof.
  intros (Hrun & _) Hready.
  assert (Hprep : (prepare h w).1 = (new_settled (Fulfilled PThis) w).1).
  { unfold prepare, Promise_resolve_this. rewrite Hready.
    by destruct (new_settled (Fulfilled PThis) w). }
  assert (Hidle : inflight w = []).
  { destruct (inflight w) as [|r [|]]; [done| |done].
    destruct Hrun as (_ & ? & _). congruence. }
  destruct ev as [| | | |e|l]; simpl.
  - unfold init_prepare. destruct (prepare h w) as [w' p]. simpl in Hprep. by subst.
  - by rewrite Hprep.
  - by rewrite wait_is_prepare, Hprep.
  - by rewrite Hidle.
  - by rewrite Hidle.
  - done.
Qed.

End PreparationFacts.

Lemma new_Sounder_sample : new_Sounder firefox loop_by_default = Ok sample_instance.
Proof. reflexivity. Qed.

(** C1: for every instance and every sequence of calls and settlements, at
    most one preparation run is in flight, and one is in flight exactly when
    [__preparing] is set; while it is, [prepare()] and [wait()] return the
    promise of that run and change nothing; from an idle instance that is not
    ready [prepare()] starts one run and returns its promise; once the
    instance is ready, [prepare()] starts nothing and returns a new promise
    that is resolved with the instance; and the instance stays ready whatever
    happens next. *)
Theorem prepare_coalesced h nav params s evs :
  new_Sounder nav params = Ok s →
  let w := exec h evs (boot s) in
  (length (inflight w) ≤ 1)%nat ∧
  (__preparing (inst w) = true ↔ ∃ r, inflight w = [r]) ∧
  (∀ r, inflight w = [r] →
        prepare h w = (w, Some (run_promise r)) ∧ wait h w = (w, Some (run_promise r))) ∧
  (__ready (inst w) = false → __preparing (inst w) = false →
   ∃ w' o, prepare h w = (w', Some (next_promise w)) ∧
           inflight w' = [{| run_promise := next_promise w; run_result := o |}]) ∧
  (__ready (inst w) = true →
   inflight w = [] ∧
   ∃ w', prepare h w = (w', Some (next_promise w)) ∧
         promises w' !! next_promise w = Some (Fulfilled PThis) ∧
         inst w' = inst w ∧ dom w' = dom w ∧ console w' = console w ∧ inflight w' = []) ∧
  (__ready (inst w) = true → ∀ evs', __ready (inst (exec h evs' w)) = true).
Proof.
  intros Hnew w.
  assert (Hw : coalesced w) by (apply exec_coalesced; by apply (boot_coalesced nav params)).
  pose proof Hw as (Hrun & Hnext & _). conjuncts.
  - by destruct (inflight w) as [|r [|]]; simpl; [lia|lia|].
  - destruct (inflight w) as [|r [|]]; [|destruct Hrun as (Hp & _)|done].
    + split; [congruence|by intros [r [=]]].
    + split; [by exists r|done].
  - intros r Hr. rewrite Hr in Hrun. destruct Hrun as (Hp & Hready & Hpromise & _).
    rewrite wait_is_prepare. unfold prepare. by rewrite Hready, Hp, Hpromise.
  - intros Hready Hp.
    destruct (prepare_starts h w Hw Hready Hp) as (w' & o & Hprep & Hin & _). by exists w', o.
  - intros Hready.
    assert (Hidle : inflight w = []).
    { destruct (inflight w) as [|r [|]]; [done| |done].
      destruct Hrun as (_ & ? & _). congruence. }
    split; [done|]. unfold prepare, Promise_resolve_this. rewrite Hready. simpl.
    eexists. split; [reflexivity|]. simpl. by rewrite lookup_insert_eq.
  - intros Hready evs'. revert Hready Hw. generalize w. clear.
    induction evs' as [|ev evs' IH]; intros w Hready Hw; [done|].
    simpl. apply IH; [by apply step_ready|by apply step_coalesced].
Qed.

(** The instance of the sample page: [Sounder.init] attached its handler, a
    facade method waited, the run settled, and [prepare()] was called again. *)
Lemma prepare_coalesced_witness :
  (length (inflight (exec sample_host [InitPrepares; CallWait; RunSettles; CallPrepare]
                       (boot sample_instance))) ≤ 1)%nat.
Proof.
  destruct (prepare_coalesced sample_host firefox loop_by_default sample_instance
              [InitPrepares; CallWait; RunSettles; CallPrepare] eq_refl) as [Hone _].
  exact Hone.
Defined.

(** C10: the promise [prepare()] returns never rejects. The chain built on
    the aggregate step turns every outcome into a promise that is not
    rejected; when the aggregate step fails, the handler clears both flags,
    logs the warning, and the promise resolves with [undefined]. So in every
    state an instance can reach no promise of the facade is rejected,
    [prepare()] and [wait()] return a promise, and the rejection handler of
    [Sounder.init] has never run. And while a run is in flight, the promise
    [prepare()] and [wait()] return is the pending promise of that run: when
    the aggregate step of the run then fails, that very promise is resolved
    with [undefined], both flags are false, the warning of [prepare] is the
    one line added to the log, and no run is in flight any more; when the
    aggregate settles with sounds, that promise is resolved with the
    instance, which is ready, and nothing is logged. *)
Theorem prepare_never_rejects h nav params s evs :
  new_Sounder nav params = Ok s →
  let w := exec h evs (boot s) in
  (∀ w0 o, is_rejected (prepare_chain (w0, o)).2 = false) ∧
  (∀ w0 e, ∃ w1, prepare_chain (w0, Rejected e) = (w1, Fulfilled PUndefined) ∧
                 __ready (inst w1) = false ∧ __preparing (inst w1) = false ∧
                 console w1 = console w0 ++ [WarnPrepare]) ∧
  (∀ p o, promises w !! p = Some o → is_rejected o = false) ∧
  (∃ p, (prepare h w).2 = Some p) ∧
  (∃ p, (wait h w).2 = Some p) ∧
  (WarnInit ∉ console w) ∧
  (∀ r e, inflight w = [r] →
     (prepare h w).2 = Some (run_promise r) ∧ (wait h w).2 = Some (run_promise r) ∧
     promises w !! run_promise r = None ∧
     promises (step h (RunFails e) w) !! run_promise r = Some (Fulfilled PUndefined) ∧
     __ready (inst (step h (RunFails e) w)) = false ∧
     __preparing (inst (step h (RunFails e) w)) = false ∧
     console (step h (RunFails e) w) = console w ++ [WarnPrepare] ∧
     inflight (step h (RunFails e) w) = []) ∧
  (∀ r sounds, inflight w = [r] → run_result r = Fulfilled sounds →
     promises (step h RunSettles w) !! run_promise r = Some (Fulfilled PThis) ∧
     __ready (inst (step h RunSettles w)) = true ∧
     __preparing (inst (step h RunSettles w)) = false ∧
     console (step h RunSettles w) = console w ∧
     inflight (step h RunSettles w) = []).
Proof.
  intros Hnew w.
  assert (Hw : coalesced w) by (apply exec_coalesced; by apply (boot_coalesced nav params)).
  assert (Hprepare : ∃ p, (prepare h w).2 = Some p).
  { destruct (__ready (inst w)) eqn:Hready.
    - unfold prepare, Promise_resolve_this. rewrite Hready. simpl. by eexists.
    - destruct (__preparing (inst w)) eqn:Hp.
      + unfold prepare. rewrite Hready, Hp. simpl.
        destruct Hw as (Hrun & _). destruct (inflight w) as [|r [|]]; [congruence| |done].
        destruct Hrun as (_ & _ & -> & _). by eexists.
      + destruct (prepare_starts h w Hw Hready Hp) as (w' & o & -> & _). by eexists. }
  destruct Hw as (Hrun & _ & Hrej & Hlog). conjuncts; try done.
  - apply prepare_chain_not_rejected.
  - intros w0 e. by eexists.
  - by rewrite wait_is_prepare.
  - intros r e Hr. rewrite Hr in Hrun. destruct Hrun as (Hp & Hready & Hpromise & Hnone & _).
    rewrite wait_is_prepare.
    assert (Hsame : (prepare h w).2 = Some (run_promise r))
      by (unfold prepare; by rewrite Hready, Hp, Hpromise).
    split; [done|]. split; [done|]. split; [done|].
    simpl. rewrite Hr. unfold deliver, prepare_chain. simpl.
    case_bool_decide; simpl; by rewrite lookup_insert_eq.
  - intros r sounds Hr Hres. simpl. rewrite Hr, Hres. unfold deliver, prepare_chain. simpl.
    case_bool_decide; simpl; by rewrite lookup_insert_eq.
Qed.

(** On the sample page, with the aggregate step made to fail: the promise
    [Sounder.init] got from [prepare()] is resolved with [undefined]. *)
Lemma prepare_never_rejects_witness :
  let w := exec sample_host [InitPrepares] (boot sample_instance) in
  promises (step sample_host (RunFails HostError) w) !! 0 = Some (Fulfilled PUndefined) ∧
  console (step sample_host (RunFails HostError) w) = console w ++ [WarnPrepare].
Proof.
  intros w. destruct (prepare_never_rejects sample_host firefox loop_by_default sample_instance
              [InitPrepares] eq_refl)
    as (_ & _ & _ & _ & _ & _ & Hfails & _).
  destruct (Hfails {| run_promise := 0;
                      run_result :=
                        (__makeAudioElemsFromData_this sample_host
                           (with_inst (set_preparing true) (boot sample_instance))).2 |}
                   HostError)
    as (_ & _ & _ & Hpromise & _ & _ & Hlog & _).
  - vm_compute. reflexivity.
  - cbn [run_promise] in Hpromise. split; [exact Hpromise|exact Hlog].
Defined.

(** * The playback facade *)

Section FacadeFacts.
Context (h : Host).

Lemma find_sound_throws soundName l e : find_sound soundName l = Throw e → e = SoundDataNotFound.
Proof.
  induction l as [|x l IH]; simpl; [by intros [= <-]|].
  by destruct (strict_eq _ _).
Qed.

Lemma hasSound_false soundName s :
  hasSound soundName s = false → __getSoundData soundName s = Throw SoundDataNotFound.
Proof.
  unfold hasSound. destruct (__getSoundData soundName s) as [|e] eqn:Hfind; [done|].
  intros _. f_equal. by apply (find_sound_throws soundName (__sounds s)).
Qed.

(** The promise [pause] returns is never rejected: its [catch] handler turns
    every failure into a warning. The same holds for the chain of [play]. *)
Lemma pause_not_rejected soundName w w' o :
  pause h soundName w = (w', Ok o) → is_rejected o = false.
Proof.
  unfold pause. destruct (wait h w) as [w1 [p|]]; [|done].
  destruct (await h p w1) as [w2 [v|e|]]; simpl.
  - destruct (pause_then h soundName v w2) as [w3 [v'|e]]; simpl; by intros [= _ <-].
  - by intros [= _ <-].
  - by intros [= _ <-].
Qed.

(** In a state an instance can reach, [play] and [pause] do not throw. *)
Lemma play_pause_return soundName w :
  coalesced w →
  (∃ w', play h soundName w = (w', Ok tt)) ∧
  (∃ w' o, pause h soundName w = (w', Ok o)).
Proof.
  intros Hw.
  assert (Hwait : ∃ w1 p, wait h w = (w1, Some p)).
  { rewrite wait_is_prepare. destruct (prepare h w) as [w1 hp] eqn:Hprep.
    destruct (__ready (inst w)) eqn:Hready.
    - unfold prepare, Promise_resolve_this in Hprep. rewrite Hready in Hprep.
      simpl in Hprep. injection Hprep as <- <-. by do 2 eexists.
    - destruct (__preparing (inst w)) eqn:Hp.
      + unfold prepare in Hprep. rewrite Hready, Hp in Hprep. injection Hprep as <- <-.
        destruct Hw as (Hrun & _). destruct (inflight w) as [|r [|]]; [congruence| |done].
        destruct Hrun as (_ & _ & -> & _). by do 2 eexists.
      + destruct (prepare_starts h w Hw Hready Hp) as (w' & o & Heq & _).
        rewrite Heq in Hprep. injection Hprep as <- <-. by do 2 eexists. }
  destruct Hwait as (w1 & p & Hwait). unfold play, pause. rewrite Hwait. split.
  - destruct (catch_ _ _). by eexists.
  - destruct (catch_ _ _). by do 2 eexists.
Qed.

(** C4 at its failing input: on a ready instance, [stop] of a name that no
    sound has returns a promise that is rejected with the lookup error. The
    [pause] it starts with logs its warning and resolves; the handler [stop]
    adds then looks the sound up again, and nothing catches what it throws. *)
Theorem stop_unknown_sound_rejects w soundName :
  __ready (inst w) = true →
  inflight w = [] →
  hasSound soundName (inst w) = false →
  ∃ w', stop h soundName w = (w', Ok (Rejected SoundDataNotFound)) ∧
        kind_of SoundDataNotFound = SoundNotFound ∧
        console w' = console w ++ [WarnPause soundName SoundDataNotFound].
Proof.
  intros Hready Hidle Hmissing%hasSound_false.
  unfold stop, pause, wait, Promise_resolve_this, await. rewrite Hready. simpl.
  rewrite Hidle. simpl. rewrite lookup_insert_eq. simpl.
  unfold pause_then. simpl. rewrite Hmissing. simpl.
  unfold stop_then. simpl. rewrite Hmissing. simpl.
  by eexists.
Qed.

End FacadeFacts.

Lemma stop_unknown_sound_rejects_witness :
  ∃ w', stop sample_host (VStr "missing") sample_ready = (w', Ok (Rejected SoundDataNotFound)) ∧
        kind_of SoundDataNotFound = SoundNotFound ∧
        console w' = console sample_ready ++ [WarnPause (VStr "missing") SoundDataNotFound].
Proof.
  apply (stop_unknown_sound_rejects sample_host sample_ready (VStr "missing")); reflexivity.
Defined.

(** * Adding sounds *)

(** What [addSounds] does when it resolves: the prepared sounds are appended
    to the registry, the elements that existed are left as they were, and the
    promise resolves with the instance. *)
Lemma addSounds_appends h store items w w' store' v :
  addSounds h store items w = (w', store', Fulfilled v) →
  v = PThis ∧ extends_dom w w' ∧
  (∃ names, console w' = console w ++ (WarnMake <$> names)) ∧
  ∃ prepared, __sounds (inst w') = __sounds (inst w) ++ prepared.
Proof.
  unfold addSounds.
  destruct (__makeAudioElemsFromData h store items w) as [[w1 store1] o] eqn:Hmake.
  apply makeAudioElemsFromData_frame in Hmake as ((Hi & _) & He & _ & _ & Hc).
  destruct o as [prepared| |]; simpl; [|done..].
  intros [= <- <- <-]. simpl. rewrite Hi. conjuncts; try done. by exists prepared.
Qed.

(** C5 at its failing inputs: [addSounds] hands its argument to
    [__makeAudioElemsFromData] as it is, without [__prepareSounds]. A spec
    with no name, which registration rejects, is not rejected: an element is
    made for it and the returned promise stays pending. A spec with a name is
    appended without the default sound parameters that registration merges
    in, so its attributes come from the options of the instance. *)
Theorem addSounds_skips_registration :
  __prepareSounds (Some [∅]) = Throw IncorrectSoundName ∧
  (added_nameless.2 = Forever ∧
   next_elem added_nameless.1.1 = S (next_elem sample_ready) ∧
   __sounds (inst added_nameless.1.1) = __sounds (inst sample_ready)) ∧
  __prepareSounds (Some [named "c"]) = Ok [extend __getDefSoundParams (named "c")] ∧
  hasOwnProperty (extend __getDefSoundParams (named "c")) "loop" = Ok true ∧
  (added_c.2 = Fulfilled PThis ∧
   __sounds (inst added_c.1.1) =
     __sounds (inst sample_ready) ++ [ESound (<["audio" := VAudio 1]> (named "c"))] ∧
   hasOwnProperty (<["audio" := VAudio 1]> (named "c")) "loop" = Ok false ∧
   attribute added_c.1.1 1 "loop" = Some (VBool true) ∧
   attribute added_c.1.1 0 "loop" = None).
Proof. conjuncts; vm_compute; reflexivity. Qed.

(** * The attributes written on an element *)

Lemma attribute_setAttribute w id a k v k' :
  dom w !! id = Some a →
  attribute (setAttribute id k v w) id k' = if decide (k = k') then Some v else attribute w id k'.
Proof.
  intros Hdom. unfold attribute, setAttribute. simpl.
  rewrite lookup_alter_eq, Hdom. simpl. by rewrite lookup_insert.
Qed.

Lemma setAudioElemAttr_writes attr sound w id a :
  validateAttr attr = true →
  prop sound "audio" = VAudio id →
  sound !! "hasOwnProperty" = None →
  dom w !! id = Some a →
  ∃ w', __setAudioElemAttr attr sound w = (w', Ok sound) ∧
        inst w' = inst w ∧ is_Some (dom w' !! id) ∧
        ∀ k, attribute w' id k =
             if decide (attr = k)
             then (if truthy (resolved_attr (inst w) sound attr)
                   then Some (resolved_attr (inst w) sound attr) else attribute w id k)
             else attribute w id k.
Proof.
  intros Hvalid Haudio Hmethod Hdom.
  unfold __setAudioElemAttr, __getAudioAttrVal, validateAttrStrict, hasOwnProperty.
  rewrite Hvalid, Haudio, Hmethod. simpl. fold (resolved_attr (inst w) sound attr).
  destruct (truthy (resolved_attr (inst w) sound attr)) eqn:Htruthy.
  - eexists. split; [done|]. split; [done|]. split.
    + unfold setAttribute. simpl. rewrite lookup_alter_eq, Hdom. by eexists.
    + intros k. by apply (attribute_setAttribute w id a).
  - exists w. split; [done|]. split; [done|]. split; [by eexists|].
    intros k. by case_decide.
Qed.

Lemma forEach_attr_writes l sound w id :
  NoDup l →
  Forall (λ attr, validateAttr attr = true) l →
  prop sound "audio" = VAudio id →
  sound !! "hasOwnProperty" = None →
  is_Some (dom w !! id) →
  ∃ w', forEach_attr l sound w = (w', Ok tt) ∧
        inst w' = inst w ∧ is_Some (dom w' !! id) ∧
        ∀ k, attribute w' id k =
             if decide (k ∈ l)
             then (if truthy (resolved_attr (inst w) sound k)
                   then Some (resolved_attr (inst w) sound k) else attribute w id k)
             else attribute w id k.
Proof.
  intros Hnodup Hvalid Haudio Hmethod. revert w.
  induction Hnodup as [|attr rest Hnotin _ IH]; intros w [a Hdom]; cbn [forEach_attr].
  - exists w. split; [done|]. split; [done|]. split; [by eexists|]. intros k.
    destruct (decide (k ∈ [])) as [Hin|]; [by apply elem_of_nil in Hin|done].
  - inversion Hvalid as [|? ? Hattr Hrest]; subst.
    destruct (setAudioElemAttr_writes attr sound w id a Hattr Haudio Hmethod Hdom)
      as (w1 & -> & Hi1 & Hd1 & Hw1).
    destruct (IH Hrest w1 Hd1) as (w2 & -> & Hi2 & Hd2 & Hw2).
    exists w2. split; [done|]. split; [congruence|]. split; [done|].
    intros k. rewrite Hw2, Hw1, Hi1.
    destruct (decide (attr = k)) as [<-|Hne].
    + rewrite (decide_True (P := attr ∈ attr :: rest)) by by left.
      rewrite (decide_False (P := attr ∈ rest)) by done. done.
    + destruct (decide (k ∈ rest)) as [Hin|Hnin].
      * rewrite (decide_True (P := k ∈ attr :: rest)) by by right. done.
      * rewrite (decide_False (P := k ∈ attr :: rest)); [done|].
        intros [?|?]%elem_of_cons; by subst.
Qed.

(** What [__setAudioElemAttrs] writes on the element of a sound: each of the
    five attributes gets the resolved value (the sound's own property if it
    has one, else the option of the instance) when that value is truthy, and
    is left as it was when the value is false, zero, empty or absent. *)
Lemma setAudioElemAttrs_writes sound w id :
  prop sound "audio" = VAudio id →
  sound !! "hasOwnProperty" = None →
  is_Some (dom w !! id) →
  ∃ w', __setAudioElemAttrs sound w = (w', Ok sound) ∧
        ∀ attr, attr ∈ __attrs →
          attribute w' id attr =
            if truthy (resolved_attr (inst w) sound attr)
            then Some (resolved_attr (inst w) sound attr) else attribute w id attr.
Proof.
  intros Haudio Hmethod Hdom. unfold __setAudioElemAttrs. rewrite Haudio.
  cbn [__validateAudioElem negb].
  destruct (forEach_attr_writes __attrs sound w id) as (w' & -> & _ & _ & Hw'); try done.
  - apply (bool_decide_unpack _). by vm_compute.
  - by repeat constructor.
  - exists w'. split; [done|]. intros attr Hattr. rewrite Hw'. by rewrite decide_True.
Qed.

(** * A sound that cannot be prepared *)

Section Pending.
Context (h : Host).

Lemma setAudioElemSource_pending sound w id :
  prop sound "audio" = VAudio id →
  (truthy (prop sound "name") = false ∨
   ∃ e, __getExtFromAvailableExts h (__getBrowserExts (navigator h)) = Throw e) →
  (__setAudioElemSource h sound w).2 = Forever.
Proof.
  intros Haudio Hwhy. unfold __setAudioElemSource, __getAvailableExt, __getAvailableExts.
  rewrite Haudio. simpl.
  destruct (truthy (prop sound "name")); simpl; [|done].
  destruct Hwhy as [?|[e He]]; [done|]. by rewrite He.
Qed.

Lemma makeAudioElem_pending sound w :
  unpreparable h sound → (__makeAudioElem h sound w).2 = Forever.
Proof.
  intros (Hnew & Hmethod & Hwhy). rewrite makeAudioElem_new by done. cbn zeta.
  set (sound0 := <["audio" := VAudio (next_elem w)]> sound).
  assert (Haudio : prop sound0 "audio" = VAudio (next_elem w)) by apply prop_insert_eq.
  assert (Hname : prop sound0 "name" = prop sound "name") by by apply prop_insert_ne.
  assert (Hmethod0 : sound0 !! "hasOwnProperty" = None)
    by by unfold sound0; rewrite lookup_insert_ne.
  destruct (setAudioElemAttrs_ok sound0 (createElement w).1 _ Haudio Hmethod0) as [w2 ->].
  rewrite <- Hname in Hwhy.
  pose proof (setAudioElemSource_pending sound0 w2 _ Haudio Hwhy) as Hsrc.
  destruct (__setAudioElemSource h sound0 w2) as [w3 o3]. simpl in Hsrc. by subst.
Qed.

(** The first executor that meets an item finds it as the store had it. *)
Lemma make_promises_pending items store i e w :
  i ∈ items → store !! i = Some e → unpreparable h (as_obj e) →
  existsb (λ p, is_forever p.2) (make_promises h store items w).2 = true.
Proof.
  intros Hin Hi Hsound. revert store w Hi.
  induction items as [|j rest IH]; intros store w Hi.
  - by apply elem_of_nil in Hin.
  - cbn [make_promises]. destruct (decide (j = i)) as [->|Hne].
    + rewrite Hi. pose proof (makeAudioElem_pending (as_obj e) w Hsound) as Hp.
      destruct (__makeAudioElem h (as_obj e) w) as [[w1 sound] o].
      destruct (make_promises h _ rest w1) as [[w2 store2] os].
      simpl in *. by subst.
    + apply elem_of_cons in Hin as [?|Hin]; [congruence|].
      destruct (store !! j) as [ej|] eqn:Hj; [|by apply IH].
      destruct (__makeAudioElem h (as_obj ej) w) as [[w1 sound] o].
      specialize (IH Hin (<[j:=written ej sound]> store) w1).
      destruct (make_promises h _ rest w1) as [[w2 store2] os].
      simpl in *. apply orb_true_iff. right. apply IH.
      by rewrite list_lookup_insert_ne.
Qed.

(** X1: one item of the array that brings no element, has the method
    [hasOwnProperty] in reach, and has no name or no encoding the browser can
    play, keeps the whole preparation pending: its promise is never settled
    (it is not rejected, so it is not dropped with a warning), the aggregate
    promise is never settled either, and [addSounds] of that array never
    resolves and appends nothing to the registry. *)
Theorem unpreparable_sound_blocks store items i e w :
  i ∈ items → store !! i = Some e →
  unpreparable h (as_obj e) →
  (∀ w0, (__makeAudioElem h (as_obj e) w0).2 = Forever) ∧
  (__makeAudioElemsFromData h store items w).2 = Forever ∧
  (addSounds h store items w).2 = Forever ∧
  __sounds (inst (addSounds h store items w).1.1) = __sounds (inst w).
Proof.
  intros Hin Hi Hsound. split; [intros w0; by apply makeAudioElem_pending|].
  pose proof (make_promises_pending items store i e w Hin Hi Hsound) as Hex.
  assert (Hall : (__makeAudioElemsFromData h store items w).2 = Forever).
  { unfold __makeAudioElemsFromData.
    destruct (make_promises h store items w) as [[w1 store1] ps]. simpl in *.
    by rewrite Hex. }
  split; [done|]. unfold addSounds.
  destruct (__makeAudioElemsFromData h store items w) as [[w1 store1] o] eqn:Hmake.
  apply makeAudioElemsFromData_frame in Hmake as ((Hinst & _) & _).
  simpl in Hall. subst o. simpl. by rewrite Hinst.
Qed.

End Pending.

(** The sound "a" of the sample instance in a browser that plays nothing. *)
Lemma unpreparable_sound_blocks_witness :
  (__makeAudioElemsFromData silent_host [ESound (named "a"); ESound (named "b")] [0; 1]
     (boot sample_instance)).2 = Forever.
Proof.
  assert (Hsound : unpreparable silent_host (named "a")).
  { split; [reflexivity|]. split; [reflexivity|]. right. eexists. reflexivity. }
  assert (Hin : 0 ∈ [0; 1]) by (apply elem_of_cons; by left).
  destruct (unpreparable_sound_blocks silent_host
              [ESound (named "a"); ESound (named "b")] [0; 1] 0 (ESound (named "a"))
              (boot sample_instance) Hin eq_refl Hsound) as (_ & Hall & _).
  exact Hall.
Defined.

(** * Looking a sound up *)

Lemma find_sound_result soundName l :
  match find_sound soundName l with
  | Ok e => ∃ pre post, l = pre ++ e :: post ∧ strict_eq (entry_name e) soundName = true ∧
                       Forall (λ x, strict_eq (entry_name x) soundName = false) pre
  | Throw err => err = SoundDataNotFound ∧
                 Forall (λ x, strict_eq (entry_name x) soundName = false) l
  end.
Proof.
  induction l as [|x l IH]; simpl; [by split|].
  destruct (strict_eq (entry_name x) soundName) eqn:Hx.
  - exists [], l. by repeat split.
  - destruct (find_sound soundName l) as [e|err].
    + destruct IH as (pre & post & -> & He & Hpre). exists (x :: pre), post.
      split; [done|]. split; [done|by constructor].
    + destruct IH as [-> Hall]. split; [done|by constructor].
Qed.

Lemma hasSound_true soundName s :
  hasSound soundName s = true ↔
  ∃ e, e ∈ __sounds s ∧ strict_eq (entry_name e) soundName = true.
Proof.
  unfold hasSound, __getSoundData.
  pose proof (find_sound_result soundName (__sounds s)) as Hres.
  destruct (find_sound soundName (__sounds s)) as [e|err].
  - destruct Hres as (pre & post & -> & He & _). split; [|done].
    intros _. exists e. split; [|done]. set_solver.
  - destruct Hres as [_ Hall]. split; [done|]. intros (e & Hin & He).
    rewrite Forall_forall in Hall. apply list_elem_of_In in Hin.
    specialize (Hall e Hin). congruence.
Qed.

(** X2: [hasSound(name)] holds exactly when some entry of the registry has a
    name strictly equal to [name]; [__getSoundData(name)] returns the first
    such entry, whatever entries with the same name follow it, and throws the
    lookup error exactly when there is none. *)
Theorem getSoundData_first_match soundName s :
  (hasSound soundName s = true ↔
   ∃ e, e ∈ __sounds s ∧ strict_eq (entry_name e) soundName = true) ∧
  (∀ e, __getSoundData soundName s = Ok e ↔
        ∃ pre post, __sounds s = pre ++ e :: post ∧
                    strict_eq (entry_name e) soundName = true ∧
                    Forall (λ x, strict_eq (entry_name x) soundName = false) pre) ∧
  (hasSound soundName s = false ↔ __getSoundData soundName s = Throw SoundDataNotFound).
Proof.
  split; [apply hasSound_true|]. split.
  - intros e. unfold __getSoundData.
    pose proof (find_sound_result soundName (__sounds s)) as Hres. split.
    + intros Hfind. by rewrite Hfind in Hres.
    + intros (pre & post & Heq & He & Hpre). rewrite Heq in *. clear Heq Hres.
      induction Hpre as [|x pre Hx _ IH]; simpl; [by rewrite He|by rewrite Hx].
  - unfold hasSound. split; [|by intros ->].
    destruct (__getSoundData soundName s) as [e|err] eqn:Hfind; [done|].
    intros _. f_equal. by apply (find_sound_throws soundName (__sounds s)).
Qed.

(** * The preference lists and the catalog *)

Lemma getBrowserName_values nav :
  __getBrowserName nav ∈ ["chrome"; "firefox"; "opera"; "explorer"; "edge"; "safari"; ""].
Proof.
  unfold __getBrowserName.
  destruct (_ && _ && _); [set_solver|].
  destruct (test_ci "firefox" _); [set_solver|].
  destruct (isOpera _); [set_solver|].
  destruct (test_ci "msie" _); [set_solver|].
  destruct (test_ci "edge" _); [set_solver|].
  destruct (test_ci "Apple Computer, Inc." _); set_solver.
Qed.

(** Whatever the browser, [__getBrowserExts] is a list of the table: it is
    not empty, and each of its encodings is a valid extension of the catalog. *)
Lemma getBrowserExts_valid nav :
  ∃ exts, __getBrowserExts nav = Some exts ∧ exts ≠ [] ∧
          Forall (λ e, validateExt e = true ∧ in_catalog e) exts.
Proof.
  unfold __getBrowserExts. pose proof (getBrowserName_values nav) as Hname.
  repeat (apply elem_of_cons in Hname as [->|Hname];
          [eexists; split; [reflexivity|]; split; [done|];
           repeat constructor; eexists; reflexivity|]).
  by apply elem_of_nil in Hname.
Qed.

(** X3: in every browser the preference list exists, is not empty and holds
    valid catalog encodings only, so negotiating over it never fails with an
    unknown encoding: it returns an encoding of the list that is valid and
    playable, or fails because none of the list can be played. *)
Theorem getBrowserExts_negotiation h :
  ∃ exts, __getBrowserExts (navigator h) = Some exts ∧ exts ≠ [] ∧
    Forall (λ e, validateExt e = true ∧ in_catalog e) exts ∧
    match __getExtFromAvailableExts h (Some exts) with
    | Ok ext => ext ∈ exts ∧ validateExt ext = true ∧ __canPlayExt h ext = Ok true
    | Throw err => err = NoPlayableExtension ∧ Forall (λ e, __canPlayExt h e = Ok false) exts
    end.
Proof.
  destruct (getBrowserExts_valid (navigator h)) as (exts & Hexts & Hne & Hvalid).
  exists exts. split; [done|]. split; [done|]. split; [done|].
  unfold __getExtFromAvailableExts. destruct exts as [|e0 rest]; [done|].
  cbn [length Nat.eqb]. pose proof (first_playable_result h (e0 :: rest)) as Hres.
  destruct (first_playable h (e0 :: rest)) as [ext|err].
  - destruct Hres as (pre & post & Heq & Hcan & _).
    assert (Hin : ext ∈ e0 :: rest) by (rewrite Heq; set_solver).
    split; [done|]. split; [|done].
    rewrite Forall_forall in Hvalid. apply list_elem_of_In in Hin. by apply Hvalid.
  - destruct Hres as [[-> Hall]|(pre & x & post & Heq & Hx & _)]; [done|].
    exfalso. assert (Hin : x ∈ e0 :: rest) by (rewrite Heq; set_solver).
    rewrite Forall_forall in Hvalid. apply list_elem_of_In in Hin.
    destruct (Hvalid x Hin) as [_ Hcat].
    destruct (canPlayExt_in_catalog h x Hcat) as [b Hb]. congruence.
Qed.

(** * Letter case *)

Lemma lower_lower c : lower (lower c) = lower c.
Proof. destruct c as [[] [] [] [] [] [] [] []]; reflexivity. Qed.

Lemma upper_upper c : upper (upper c) = upper c.
Proof. destruct c as [[] [] [] [] [] [] [] []]; reflexivity. Qed.

Lemma prefix_ci_fold p s : prefix_ci p (fold_case s) = prefix_ci p s.
Proof.
  revert s. induction p as [|a p IH]; intros [|b s]; simpl; try done.
  by rewrite lower_lower, IH.
Qed.

Lemma test_ci_fold p s : test_ci p (fold_case s) = test_ci p s.
Proof.
  induction s as [|c s IH].
  - done.
  - change (prefix_ci p (fold_case (String c s)) || test_ci p (fold_case s) =
            prefix_ci p (String c s) || test_ci p s).
    by rewrite prefix_ci_fold, IH.
Qed.

Lemma toUpperCase_idemp s : toUpperCase (toUpperCase s) = toUpperCase s.
Proof. induction s as [|c s IH]; simpl; [done|]. by rewrite upper_upper, IH. Qed.

(** X4: the classifier ignores the case of the letters A to Z: two browsers
    whose vendor strings, and whose user agents, differ in the case of these
    letters only get the same name. *)
Theorem getBrowserName_ignores_case nav nav' :
  fold_case (vendor nav) = fold_case (vendor nav') →
  fold_case (userAgent nav) = fold_case (userAgent nav') →
  __getBrowserName nav = __getBrowserName nav'.
Proof.
  intros Hv Hua.
  assert (Htest : ∀ p, test_ci p (userAgent nav) = test_ci p (userAgent nav'))
    by (intros p; by rewrite <- (test_ci_fold p (userAgent nav)), Hua, test_ci_fold).
  assert (Htestv : ∀ p, test_ci p (vendor nav) = test_ci p (vendor nav'))
    by (intros p; by rewrite <- (test_ci_fold p (vendor nav)), Hv, test_ci_fold).
  unfold __getBrowserName, isOpera. cbn zeta. by rewrite !Htest, !Htestv.
Qed.

(** Firefox, with its user agent in capitals. *)
Lemma getBrowserName_ignores_case_witness :
  __getBrowserName
    {| vendor := "";
       userAgent := "MOZILLA/5.0 (X11; LINUX X86_64; RV:100.0) GECKO/20100101 FIREFOX/100.0" |} =
  "firefox".
Proof.
  rewrite <- (getBrowserName_ignores_case firefox); reflexivity.
Defined.

(** X5: the catalog lookup ignores letter case, and so does the capability
    test; the validator of extensions does not: an extension it accepts is in
    the catalog, and its upper-case form, still in the catalog, is refused. *)
Theorem getAudioType_ignores_case h ext :
  __getAudioType (toUpperCase ext) = __getAudioType ext ∧
  __canPlayExt h (toUpperCase ext) = __canPlayExt h ext ∧
  (validateExt ext = true →
   in_catalog ext ∧ in_catalog (toUpperCase ext) ∧ validateExt (toUpperCase ext) = false).
Proof.
  assert (Htype : __getAudioType (toUpperCase ext) = __getAudioType ext).
  { unfold __getAudioType. rewrite toUpperCase_idemp. by destruct ext. }
  split; [done|]. split; [unfold __canPlayExt; by rewrite Htype|].
  intros Hvalid. unfold validateExt, includes in Hvalid.
  apply existsb_exists in Hvalid as (x & Hin & Hx%String.eqb_eq). subst x.
  simpl in Hin.
  repeat (destruct Hin as [<-|Hin]; [by repeat split; try (eexists; reflexivity)|]).
  done.
Qed.

(** * What registration keeps of a spec *)

Lemma extend_lookup target source k :
  extend target source !! k =
  match source !! k with
  | Some v => if is_undefined v then target !! k else Some v
  | None => target !! k
  end.
Proof.
  unfold extend. destruct (source !! k) as [v|] eqn:Hk.
  - destruct (is_undefined v) eqn:Hv.
    + apply lookup_union_r, map_lookup_filter_None. right.
      intros x Hx. simpl. congruence.
    + apply lookup_union_Some_raw. left. by apply map_lookup_filter_Some.
  - apply lookup_union_r, map_lookup_filter_None. by left.
Qed.

(** X6: registration keeps the specs in their order, one entry for each,
    duplicates of a name included; an entry has every property of its spec
    that is not [undefined], and the default sound parameters for the rest. *)
Theorem prepareSounds_merges_defaults specs prepared :
  __prepareSounds (Some specs) = Ok prepared →
  length prepared = length specs ∧
  ∀ i spec, specs !! i = Some spec →
    ∃ sound, prepared !! i = Some sound ∧
      truthy (prop sound "name") = true ∧
      prop sound "name" = prop spec "name" ∧
      ∀ k, sound !! k = match spec !! k with
                        | Some v => if is_undefined v then __getDefSoundParams !! k else Some v
                        | None => __getDefSoundParams !! k
                        end.
Proof.
  intros [Hnames ->]%prepareSounds_ok. split; [apply length_fmap|].
  intros i spec Hi. exists (extend __getDefSoundParams spec).
  split; [by rewrite list_lookup_fmap, Hi|].
  assert (Hname : truthy (prop spec "name") = true).
  { rewrite Forall_forall in Hnames. apply Hnames, list_elem_of_In.
    apply list_elem_of_lookup. by exists i. }
  assert (Hsame : prop (extend __getDefSoundParams spec) "name" = prop spec "name").
  { unfold prop in *. rewrite extend_lookup.
    destruct (spec !! "name") as [[]|]; done. }
  split; [by rewrite Hsame|]. split; [done|]. intros k. apply extend_lookup.
Qed.

(** Two sounds of the same name, the second with a volume of its own. *)
Lemma prepareSounds_merges_defaults_witness :
  length [extend __getDefSoundParams (named "a");
          extend __getDefSoundParams (<["volume" := VNum 0.5%float]> (named "a"))] = 2.
Proof.
  assert (Hreg : __prepareSounds (Some [named "a"; <["volume" := VNum 0.5%float]> (named "a")]) =
                 Ok [extend __getDefSoundParams (named "a");
                     extend __getDefSoundParams (<["volume" := VNum 0.5%float]> (named "a"))])
    by (vm_compute; reflexivity).
  destruct (prepareSounds_merges_defaults _ _ Hreg) as [Hlen _].
  exact Hlen.
Defined.

(** * The attributes of an element, one sound at a time *)

(** X7: [__setAudioElemAttrs] on a sound whose element is in the page. If
    the sound has the method [hasOwnProperty] in reach, nothing is raised and
    each of the five attributes gets the resolved value (the sound's own
    property if it has one, else the option of the instance) when that value
    is truthy; an attribute whose resolved value is falsy is left as it was,
    even if it was set before; the sources of every element, and every other
    element, stay as they were. If an own property hides the method, the
    call raises a TypeError at the first attribute and writes nothing. *)
Theorem setAudioElemAttrs_truthy_only sound w id :
  prop sound "audio" = VAudio id →
  is_Some (dom w !! id) →
  (sound !! "hasOwnProperty" = None →
   ∃ w', __setAudioElemAttrs sound w = (w', Ok sound) ∧
         (∀ attr, attr ∈ __attrs →
            attribute w' id attr =
              if truthy (resolved_attr (inst w) sound attr)
              then Some (resolved_attr (inst w) sound attr) else attribute w id attr) ∧
         (∀ id', sources w' id' = sources w id') ∧
         (∀ id', id' ≠ id → dom w' !! id' = dom w !! id') ∧
         inst w' = inst w ∧ console w' = console w) ∧
  (hides_method sound → __setAudioElemAttrs sound w = (w, Throw TypeError)).
Proof.
  intros Haudio Hdom. split; [|intros Hhides; by apply (setAudioElemAttrs_hidden sound w id)].
  intros Hmethod.
  destruct (setAudioElemAttrs_writes sound w id Haudio Hmethod Hdom) as (w' & Hrun & Hattrs).
  exists w'. split; [done|]. split; [done|].
  apply setAudioElemAttrs_frame in Hrun as ((Hi & _) & _ & Hc & Hs & Hd).
  conjuncts; try done. intros id' Hne. apply Hd. rewrite Haudio. congruence.
Qed.

(** The sound "a" with [loop: true, muted: false] on an element that was
    muted: [loop] is written, [muted] stays. *)
Lemma setAudioElemAttrs_truthy_only_witness :
  ∃ w', __setAudioElemAttrs looped_a muted_page = (w', Ok looped_a) ∧
        attribute w' 0 "loop" = Some (VBool true) ∧
        attribute w' 0 "muted" = Some (VBool true).
Proof.
  assert (Haudio : prop looped_a "audio" = VAudio 0) by (vm_compute; reflexivity).
  assert (Hdom : is_Some (dom muted_page !! 0)) by (vm_compute; by eexists).
  assert (Hmethod : looped_a !! "hasOwnProperty" = None) by (vm_compute; reflexivity).
  destruct (setAudioElemAttrs_truthy_only looped_a muted_page 0 Haudio Hdom) as [Hwrites _].
  destruct (Hwrites Hmethod) as (w' & Hrun & Hattrs & _).
  assert (Hloop : "loop" ∈ __attrs) by (apply (bool_decide_unpack _); by vm_compute).
  assert (Hmuted : "muted" ∈ __attrs) by (apply (bool_decide_unpack _); by vm_compute).
  exists w'. split; [exact Hrun|]. split.
  - rewrite (Hattrs "loop" Hloop). vm_compute. reflexivity.
  - rewrite (Hattrs "muted" Hmuted). vm_compute. reflexivity.
Defined.

(** * Preparing every sound of a list *)

Lemma attribute_appendChild w id c id' k :
  attribute (appendChild id c w) id' k = attribute w id' k.
Proof.
  unfold attribute, appendChild. simpl. rewrite lookup_alter.
  case_decide; [subst|done]. by destruct (dom w !! id').
Qed.

Lemma resolved_attr_insert_audio s sound v attr :
  attr ∈ __attrs →
  resolved_attr s (<["audio" := v]> sound) attr = resolved_attr s sound attr.
Proof.
  intros Hattr. assert (Hne : "audio" ≠ attr).
  { intros <-. revert Hattr. change ("audio" ∉ __attrs).
    apply (bool_decide_unpack _). by vm_compute. }
  unfold resolved_attr, hasOwnProperty, prop. by rewrite lookup_insert_ne.
Qed.

Lemma with_elements_lookup n sounds i :
  with_elements n sounds !! i = (λ sound, <["audio" := VAudio (n + i)]> sound) <$> sounds !! i.
Proof.
  revert n i. induction sounds as [|s rest IH]; intros n [|i]; simpl; try done.
  - by rewrite Nat.add_0_r.
  - rewrite IH. by rewrite Nat.add_succ_r.
Qed.

Lemma with_elements_length n sounds : length (with_elements n sounds) = length sounds.
Proof. revert n. induction sounds as [|s rest IH]; intros n; simpl; [done|]. by rewrite IH. Qed.

Section PrepareAll.
Context (h : Host) (ext : string).
Context (Hext : __getExtFromAvailableExts h (__getBrowserExts (navigator h)) = Ok ext).

Lemma negotiated_valid : validateExt ext = true ∧ truthy (VStr ext) = true.
Proof.
  split; [|by apply (getExt_playable h _ _ Hext)].
  destruct (getBrowserExts_valid (navigator h)) as (exts & Hexts & _ & Hvalid).
  rewrite Hexts in Hext. unfold __getExtFromAvailableExts in Hext.
  destruct (Nat.eqb _ _); [done|].
  pose proof (first_playable_result h exts) as Hres. rewrite Hext in Hres.
  destruct Hres as (pre & post & -> & _). apply Forall_app in Hvalid as [_ Hvalid].
  inversion Hvalid as [|? ? [Hv _] _]; by subst.
Qed.

Lemma setAudioElemSource_ok sound w id :
  prop sound "audio" = VAudio id →
  truthy (prop sound "name") = true →
  __setAudioElemSource h sound w =
    (appendChild id (source_of h (inst w) (prop sound "name") ext) w, Fulfilled sound).
Proof.
  intros Haudio Hname. destruct negotiated_valid as [Hvalid Htruthy].
  unfold __setAudioElemSource, __getAvailableExt, __getAvailableExts.
  rewrite Haudio, Hname. simpl. rewrite Hext. simpl in *. rewrite Htruthy. simpl.
  unfold __makeAudioElemSource, __getSoundPath, validateExtStrict. rewrite Hvalid. simpl.
  unfold source_of, __getSoundPathBase. by rewrite !string_app_assoc.
Qed.

(** One sound that can be prepared: its promise resolves with the sound, the
    element is new and is the only one touched, it carries the truthy
    attributes and exactly one source. *)
Lemma makeAudioElem_fresh sound w :
  preparable sound →
  ∃ w1, __makeAudioElem h sound w =
          (w1, <["audio" := VAudio (next_elem w)]> sound,
           Fulfilled (ESound (<["audio" := VAudio (next_elem w)]> sound))) ∧
        next_elem w1 = S (next_elem w) ∧ only_dom w w1 ∧ console w1 = console w ∧
        (∀ id, id ≠ next_elem w → dom w1 !! id = dom w !! id) ∧
        sources w1 (next_elem w) = Some [source_of h (inst w) (prop sound "name") ext] ∧
        (∀ attr, attr ∈ __attrs →
           attribute w1 (next_elem w) attr =
             if truthy (resolved_attr (inst w) sound attr)
             then Some (resolved_attr (inst w) sound attr) else None).
Proof.
  intros (Hnew & Hname & Hmethod). rewrite makeAudioElem_new by done. cbn zeta.
  unfold createElement. cbn [fst].
  set (w0 := {| inst := inst w; dom := _ |}).
  set (sound0 := <["audio" := VAudio (next_elem w)]> sound).
  assert (Haudio : prop sound0 "audio" = VAudio (next_elem w)) by apply prop_insert_eq.
  assert (Hname0 : prop sound0 "name" = prop sound "name") by by apply prop_insert_ne.
  assert (Hmethod0 : sound0 !! "hasOwnProperty" = None)
    by by unfold sound0; rewrite lookup_insert_ne.
  assert (Hdom0 : is_Some (dom w0 !! next_elem w))
    by (simpl; rewrite lookup_insert_eq; by eexists).
  destruct (setAudioElemAttrs_writes sound0 w0 _ Haudio Hmethod0 Hdom0)
    as (w2 & Hattrs & Hwritten).
  rewrite Hattrs.
  apply setAudioElemAttrs_frame in Hattrs
    as ((Hi2 & Hp2 & Hn2 & Hf2 & Hinit2) & Hnext2 & Hc2 & Hs2 & Hd2).
  rewrite (setAudioElemSource_ok sound0 w2 _ Haudio) by by rewrite Hname0.
  eexists. split; [reflexivity|]. simpl. conjuncts; try done.
  - intros id Hid. rewrite lookup_alter_ne by done.
    rewrite Hd2 by (rewrite Haudio; congruence). simpl. by apply lookup_insert_ne.
  - fold (sources (appendChild (next_elem w)
                     (source_of h (inst w2) (prop sound0 "name") ext) w2) (next_elem w)).
    rewrite sources_appendChild, Hs2, Hi2, Hname0. unfold sources. simpl.
    by rewrite lookup_insert_eq.
  - intros attr Hattr.
    fold (attribute (appendChild (next_elem w)
                       (source_of h (inst w2) (prop sound0 "name") ext) w2) (next_elem w) attr).
    rewrite attribute_appendChild, (Hwritten attr Hattr).
    change (resolved_attr (inst w0) sound0 attr)
      with (resolved_attr (inst w) (<["audio" := VAudio (next_elem w)]> sound) attr).
    rewrite (resolved_attr_insert_audio _ sound _ attr Hattr).
    unfold attribute; simpl; by rewrite lookup_insert_eq.
Qed.

End PrepareAll.

(** The slots of the registry, and what they hold. *)
Lemma slots_lookup (l : list obj) :
  NoDup (slots (ESound <$> l)) ∧
  Forall2 (λ i sound, (ESound <$> l) !! i = Some (ESound sound)) (slots (ESound <$> l)) l.
Proof.
  unfold slots. rewrite length_fmap. split; [apply NoDup_seq|].
  apply Forall2_same_length_lookup. split; [by rewrite length_seq|].
  intros i j sound Hj Hsound. apply lookup_seq in Hj as [-> _]. simpl.
  by rewrite list_lookup_fmap, Hsound.
Qed.

(** A store whose slots hold these sounds is the list of these sounds. *)
Lemma slots_store (store : list entry) (l : list obj) n :
  Forall2 (λ i sound, store !! i = Some (ESound sound)) (seq 0 n) l →
  length store = n →
  store = ESound <$> l.
Proof.
  intros Hslots Hlen. pose proof (Forall2_length Hslots) as Hn.
  rewrite length_seq in Hn. apply Forall2_same_length_lookup in Hslots as [_ Hslots].
  apply (list_eq_same_length _ _ n); [by rewrite length_fmap|done|].
  intros i x y Hi Hx Hy. rewrite list_lookup_fmap in Hy.
  destruct (l !! i) as [sound|] eqn:Hsound; [|done]. injection Hy as <-.
  assert (Hseq : seq 0 n !! i = Some i) by by apply lookup_seq.
  specialize (Hslots i i sound Hseq Hsound). congruence.
Qed.

Section PrepareList.
Context (h : Host) (ext : string).
Context (Hext : __getExtFromAvailableExts h (__getBrowserExts (navigator h)) = Ok ext).

(** The promises of sounds that can all be prepared, and what they push. *)
Lemma fresh_promises_pushed sounds n :
  Forall preparable sounds →
  let ps := zip_with (λ sound sound', (sound, Fulfilled (ESound sound')))
              sounds (with_elements n sounds) in
  preparedSounds ps = ESound <$> with_elements n sounds ∧
  existsb (λ p, is_forever p.2) ps = false ∧
  Forall (λ p : obj * outcome entry, is_rejected p.2 = false) ps.
Proof.
  intros Hall. simpl. unfold preparedSounds.
  assert (Hparts :
    List.filter resolved_at_once
      (zip_with (λ sound sound', (sound, Fulfilled (ESound sound')))
         sounds (with_elements n sounds)) = [] ∧
    omap (λ p : obj * outcome entry, fulfilled_with p.2)
      (List.filter (λ p, negb (resolved_at_once p))
         (zip_with (λ sound sound', (sound, Fulfilled (ESound sound')))
            sounds (with_elements n sounds))) = ESound <$> with_elements n sounds ∧
    existsb (λ p : obj * outcome entry, is_forever p.2)
      (zip_with (λ sound sound', (sound, Fulfilled (ESound sound')))
         sounds (with_elements n sounds)) = false ∧
    Forall (λ p : obj * outcome entry, is_rejected p.2 = false)
      (zip_with (λ sound sound', (sound, Fulfilled (ESound sound')))
         sounds (with_elements n sounds))).
  { revert n. induction Hall as [|s rest [Hs _] _ IH]; intros n; [done|].
    destruct (IH (S n)) as (IH1 & IH2 & IH3 & IH4).
    assert (Hlater : ∀ o : outcome entry, resolved_at_once (s, o) = false)
      by (intros o; exact Hs).
    cbn [zip_with with_elements List.filter existsb]. rewrite Hlater.
    cbn [negb omap fulfilled_with snd is_forever orb fmap list_fmap].
    rewrite IH1, IH3. split; [done|]. split; [|split; [done|by constructor]].
    rewrite <- IH2. reflexivity. }
  destruct Hparts as (-> & -> & -> & ?). done.
Qed.

(** The promises of an array whose items are different sounds that can all
    be prepared: each gets its element, in the store too. *)
Lemma make_promises_fresh items sounds store w :
  NoDup items →
  Forall2 (λ i sound, store !! i = Some (ESound sound)) items sounds →
  Forall preparable sounds →
  ∃ w' store', make_promises h store items w =
          (w', store', zip_with (λ sound sound', (sound, Fulfilled (ESound sound')))
                         sounds (with_elements (next_elem w) sounds)) ∧
        next_elem w' = next_elem w + length sounds ∧ only_dom w w' ∧
        (∀ id, (id < next_elem w)%nat → dom w' !! id = dom w !! id) ∧
        (∀ i sound, sounds !! i = Some sound →
           sources w' (next_elem w + i) =
             Some [source_of h (inst w) (prop sound "name") ext] ∧
           ∀ attr, attr ∈ __attrs →
             attribute w' (next_elem w + i) attr =
               if truthy (resolved_attr (inst w) sound attr)
               then Some (resolved_attr (inst w) sound attr) else None) ∧
        Forall2 (λ i sound', store' !! i = Some (ESound sound'))
          items (with_elements (next_elem w) sounds) ∧
        (∀ j, j ∉ items → store' !! j = store !! j).
Proof.
  intros Hnodup Hitems Hall. revert sounds store w Hnodup Hitems Hall.
  induction items as [|i items IH]; intros sounds store w Hnodup Hitems Hall.
  - inversion Hitems; subst.
    exists w, store. simpl. split; [done|]. split; [lia|]. split; [apply only_dom_refl|].
    split; [done|]. split; [by intros [|?] ? ?|]. by split.
  - inversion Hitems as [|? s ? rest Hi Hitems']; subst. clear Hitems.
    rename Hitems' into Hitems.
    pose proof (NoDup_cons_1_1 _ _ Hnodup) as Hnotin.
    apply NoDup_cons_1_2 in Hnodup.
    inversion Hall as [|? ? Hs Hrest]; subst.
    destruct (makeAudioElem_fresh h ext Hext s w Hs)
      as (w1 & Hone & Hn1 & Ho1 & _ & Hd1 & Hs1 & Ha1).
    set (s' := <["audio" := VAudio (next_elem w)]> s) in *.
    assert (Hitems1 : Forall2 (λ j sound, <[i:=ESound s']> store !! j = Some (ESound sound))
                        items rest).
    { clear -Hitems Hnotin. induction Hitems as [|j x js xs Hj _ IH']; [constructor|].
      apply not_elem_of_cons in Hnotin as [Hne Hnotin].
      constructor; [|by apply IH']. by rewrite list_lookup_insert_ne. }
    destruct (IH rest (<[i:=ESound s']> store) w1 Hnodup Hitems1 Hrest)
      as (w2 & store2 & Hmake & Hn2 & Ho2 & Hd2 & Hi2 & Hst2 & Hother2).
    exists w2, store2. cbn [make_promises]. rewrite Hi. cbn [as_obj].
    rewrite Hone. cbn [written]. rewrite Hmake, Hn1.
    split; [done|]. pose proof Ho1 as (Hinst1 & _). conjuncts.
    + rewrite Hn2, Hn1. simpl. lia.
    + by apply (only_dom_trans w w1 w2).
    + intros id Hid. rewrite Hd2 by lia. apply Hd1. lia.
    + intros [|k] sound Hk; simpl in Hk.
      * injection Hk as <-. rewrite Nat.add_0_r.
        assert (Hsame : dom w2 !! next_elem w = dom w1 !! next_elem w) by (apply Hd2; lia).
        split; [unfold sources; rewrite Hsame; apply Hs1|].
        intros attr Hattr. unfold attribute. rewrite Hsame. by apply Ha1.
      * destruct (Hi2 k sound Hk) as [Hsrc Hattrs]. rewrite Hn1, Hinst1 in Hsrc, Hattrs.
        rewrite Nat.add_succ_r. done.
    + cbn [with_elements]. constructor; [|by rewrite <- Hn1].
      rewrite Hother2 by done. apply list_lookup_insert_eq.
      by apply lookup_lt_Some in Hi.
    + intros j [Hne Hj]%not_elem_of_cons. rewrite Hother2 by done.
      by rewrite list_lookup_insert_ne.
Qed.

(** Different sounds that can all be prepared, in a browser that plays some
    encoding of its list: the aggregate promise resolves with the sounds in
    their order, each with its new element. *)
Lemma makeAudioElemsFromData_fresh items sounds store w :
  NoDup items →
  Forall2 (λ i sound, store !! i = Some (ESound sound)) items sounds →
  Forall preparable sounds →
  ∃ w' store', __makeAudioElemsFromData h store items w =
          (w', store', Fulfilled (ESound <$> with_elements (next_elem w) sounds)) ∧
        next_elem w' = next_elem w + length sounds ∧ only_dom w w' ∧ console w' = console w ∧
        (∀ id, (id < next_elem w)%nat → dom w' !! id = dom w !! id) ∧
        (∀ i sound, sounds !! i = Some sound →
           sources w' (next_elem w + i) =
             Some [source_of h (inst w) (prop sound "name") ext] ∧
           ∀ attr, attr ∈ __attrs →
             attribute w' (next_elem w + i) attr =
               if truthy (resolved_attr (inst w) sound attr)
               then Some (resolved_attr (inst w) sound attr) else None) ∧
        Forall2 (λ i sound', store' !! i = Some (ESound sound'))
          items (with_elements (next_elem w) sounds) ∧
        (∀ j, j ∉ items → store' !! j = store !! j).
Proof.
  intros Hnodup Hitems Hall.
  destruct (make_promises_fresh items sounds store w Hnodup Hitems Hall)
    as (w' & store' & Hmake & Hn & Ho & Hd & Hi & Hst & Hother).
  destruct (fresh_promises_pushed sounds (next_elem w) Hall) as (Hpushed & Hpending & Hrej).
  pose proof (make_promises_frame h _ _ _ _ _ _ Hmake) as (_ & _ & Hc & _).
  exists w', store'. unfold __makeAudioElemsFromData. rewrite Hmake.
  rewrite warn_rejected_none by done. rewrite Hpending, Hpushed. by conjuncts.
Qed.

End PrepareList.

(** * Adding sounds, and the whole of [Sounder.init] *)





Lemma prepareSounds_named specs :
  Forall (λ spec, truthy (prop spec "name") = true) specs →
  __prepareSounds (Some specs) = Ok (extend __getDefSoundParams <$> specs).
Proof.
  intros Hall. unfold __prepareSounds. simpl.
  destruct specs as [|s0 rest]; [done|]. cbn [length Nat.eqb].
  induction Hall as [|s l Hs _ IH]; [done|].
  cbn [map_result]. rewrite Hs. cbn [negb rbind]. rewrite IH. reflexivity.
Qed.

(** Registration keeps what makes a spec preparable; a property
    [hasOwnProperty] whose value is [undefined] is not copied. *)
Lemma extend_preparable spec :
  registrable spec → preparable (extend __getDefSoundParams spec) ∧
  prop (extend __getDefSoundParams spec) "name" = prop spec "name".
Proof.
  intros (Hnew & Hname & Hmethod). unfold preparable, prop in *. rewrite !extend_lookup.
  conjuncts.
  - by destruct (spec !! "audio") as [[]|].
  - by destruct (spec !! "name") as [[]|].
  - by destruct (spec !! "hasOwnProperty") as [[]|].
  - by destruct (spec !! "name") as [[]|].
Qed.

Lemma strict_eq_truthy v : truthy v = true → strict_eq v v = true.
Proof.
  destruct v as [| |b|f|s|id]; simpl; try done.
  - by destruct b.
  - unfold PrimFloat.is_nan. intros Hv.
    apply negb_true_iff, orb_false_iff in Hv as [_ Hnan].
    by apply negb_false_iff in Hnan.
  - intros _. apply String.eqb_refl.
  - intros _. apply Nat.eqb_refl.
Qed.

(** X9: [Sounder.init] with specs that all have a name, no element and no
    property that hides the method [hasOwnProperty], in a browser that plays
    some encoding of its list. At once the sounds of the registry have their
    elements. Once the run has settled the instance is ready, nothing was
    logged, the promise of [prepare()] is resolved with the instance, the
    registry holds the specs in their order, merged over the default sound
    parameters, each with its element; every name is found by [hasSound], and
    the element of the sound at position [i] has one source, made of the path
    prefix, the name and the encoding. *)
Theorem init_prepares_all h ext params specs :
  __getExtFromAvailableExts h (__getBrowserExts (navigator h)) = Ok ext →
  sounds params = Some specs →
  Forall registrable specs →
  ∃ w0, init h params = Ok w0 ∧
    __sounds (inst w0) = ESound <$> with_elements 0 (extend __getDefSoundParams <$> specs) ∧
    let w := step h RunSettles w0 in
    __ready (inst w) = true ∧ __preparing (inst w) = false ∧ inflight w = [] ∧
    console w = [] ∧
    promises w !! 0 = Some (Fulfilled PThis) ∧
    __sounds (inst w) = ESound <$> with_elements 0 (extend __getDefSoundParams <$> specs) ∧
    ∀ i spec, specs !! i = Some spec →
      hasSound (prop spec "name") (inst w) = true ∧
      sources w i = Some [source_of h (inst w) (prop spec "name") ext].
Proof.
  intros Hext Hparams Hall.
  assert (Hreg : __prepareSounds (Some specs) = Ok (extend __getDefSoundParams <$> specs)).
  { apply prepareSounds_named. eapply Forall_impl; [|exact Hall]. by intros spec (_ & ? & _). }
  assert (Hall' : Forall preparable (extend __getDefSoundParams <$> specs)).
  { apply Forall_fmap. eapply Forall_impl; [|exact Hall].
    intros spec Hspec. by apply extend_preparable. }
  unfold init, new_Sounder. rewrite Hparams, Hreg. cbn [rbind].
  set (s := {| __browserExts := _ |}).
  unfold init_prepare, prepare. cbn [boot inst __ready __preparing s].
  set (w1 := with_inst (set_preparing true) (boot s)).
  unfold __makeAudioElemsFromData_this.
  change (__sounds (inst w1)) with (ESound <$> (extend __getDefSoundParams <$> specs)).
  destruct (slots_lookup (extend __getDefSoundParams <$> specs)) as [Hnodup Hslots].
  destruct (makeAudioElemsFromData_fresh h ext Hext _ _ _ w1 Hnodup Hslots Hall')
    as (w2 & store2 & Hmake & _ & (Hi & Hp & Hn & Hf & Hinit) & Hc & _ & Hnew & Hst & _).
  rewrite Hmake.
  assert (Hstore : store2 = ESound <$> with_elements 0 (extend __getDefSoundParams <$> specs)).
  { apply (slots_store _ _ _ Hst).
    by apply makeAudioElemsFromData_frame in Hmake as (_ & _ & _ & Hlen & _). }
  eexists. split; [reflexivity|].
  unfold start_run. cbn. rewrite Hf, Hn, Hi, Hp, Hc. cbn.
  rewrite bool_decide_eq_true_2 by done. cbn.
  rewrite lookup_insert_eq. conjuncts; try done.
  intros i spec Hi'.
  assert (Hi'' : (extend __getDefSoundParams <$> specs) !! i =
                 Some (extend __getDefSoundParams spec)) by by rewrite list_lookup_fmap, Hi'.
  assert (Hspec : registrable spec).
  { rewrite Forall_forall in Hall. apply Hall, list_elem_of_In, list_elem_of_lookup. by exists i. }
  destruct (extend_preparable spec Hspec) as [_ Hname].
  destruct (Hnew i _ Hi'') as [Hsrc _]. split.
  - apply hasSound_true. cbn.
    exists (ESound (<["audio" := VAudio i]> (extend __getDefSoundParams spec))). split.
    + apply list_elem_of_fmap_2, list_elem_of_lookup. exists i.
      rewrite with_elements_lookup.
      change (extend _ <$> specs) with (extend __getDefSoundParams <$> specs).
      by rewrite Hi''.
    + unfold entry_name. cbn. rewrite prop_insert_ne by done.
      change (extend _ spec) with (extend __getDefSoundParams spec). rewrite Hname.
      apply strict_eq_truthy. by destruct Hspec as (_ & ? & _).
  - rewrite <- Hname. change (next_elem w1 + i) with i in Hsrc.
    unfold sources in *. cbn [dom]. rewrite Hsrc. reflexivity.
Qed.

(** The sample parameters in the sample browser. *)
Lemma init_prepares_all_witness :
  ∃ w0, init sample_host loop_by_default = Ok w0 ∧
        sources (step sample_host RunSettles w0) 0 =
          Some [ {| src := "/s/a.mp3"; type := "audio/mp3" |} ].
Proof.
  assert (Hext : __getExtFromAvailableExts sample_host
                   (__getBrowserExts (navigator sample_host)) = Ok MP3)
    by (vm_compute; reflexivity).
  assert (Hall : Forall registrable [named "a"]) by (repeat constructor).
  assert (Hspecs : sounds loop_by_default = Some [named "a"]) by (vm_compute; reflexivity).
  destruct (init_prepares_all sample_host MP3 loop_by_default [named "a"] Hext Hspecs Hall)
    as (w0 & Hinit & _ & Hrest).
  exists w0. split; [exact Hinit|].
  destruct Hrest as (_ & _ & _ & _ & _ & _ & Hsounds).
  destruct (Hsounds 0 (named "a") eq_refl) as [_ Hsrc]. rewrite Hsrc.
  vm_compute in Hinit. injection Hinit as <-. vm_compute. reflexivity.
Defined.

(** * What the aggregate step settles to *)

Section Aggregate.
Context (h : Host).

(** A sound with no element that hides the method: its promise is rejected. *)
Lemma makeAudioElem_rejected sound w :
  __validateAudioElem (prop sound "audio") = false →
  hides_method sound →
  (__makeAudioElem h sound w).2 = Rejected TypeError.
Proof.
  intros Hnew [v Hv]. rewrite makeAudioElem_new by done. cbn zeta.
  set (sound0 := <["audio" := VAudio (next_elem w)]> sound).
  assert (Haudio : prop sound0 "audio" = VAudio (next_elem w)) by apply prop_insert_eq.
  rewrite (setAudioElemAttrs_hidden sound0 _ _ Haudio); [done|].
  exists v. unfold sound0. by rewrite lookup_insert_ne.
Qed.

(** What the promise of one sound settles to: it is fulfilled with an entry
    that leads to an element; or it is rejected, for a sound with no element
    that hides the method [hasOwnProperty]; or it stays pending, for a sound
    that cannot be prepared. *)
Lemma makeAudioElem_outcome sound w :
  match (__makeAudioElem h sound w).2 with
  | Fulfilled e => owns_element e
  | Rejected _ => __validateAudioElem (prop sound "audio") = false ∧ hides_method sound
  | Forever => unpreparable h sound
  end.
Proof.
  destruct (__validateAudioElem (prop sound "audio")) eqn:Hown.
  - destruct (prop sound "audio") as [| | | | |id] eqn:Hprop; try discriminate Hown.
    by rewrite (makeAudioElem_brought h sound w id Hprop).
  - destruct (sound !! "hasOwnProperty") as [v|] eqn:Hmethod.
    { rewrite makeAudioElem_rejected; [|done|by exists v]. split; [done|by exists v]. }
    destruct (truthy (prop sound "name")) eqn:Hname.
    + destruct (__getExtFromAvailableExts h (__getBrowserExts (navigator h)))
        as [ext|e] eqn:Hext.
      * destruct (makeAudioElem_fresh h ext Hext sound w) as (w1 & -> & _); [done|].
        simpl. eexists. apply prop_insert_eq.
      * assert (Hsound : unpreparable h sound)
          by (split; [done|]; split; [done|]; right; by exists e).
        by rewrite makeAudioElem_pending.
    + assert (Hsound : unpreparable h sound) by (split; [done|]; split; [done|]; by left).
      by rewrite makeAudioElem_pending.
Qed.

(** The promises of an array, whatever its items: a promise that is rejected
    or stays pending belongs to an item that its executor found as the store
    had it at the start. [store0] is that store; an item that differs from
    it has got its element since. *)
Lemma make_promises_outcomes items (store0 store : list entry) w :
  (∀ j e, store !! j = Some e →
          store0 !! j = Some e ∨ __validateAudioElem (entry_audio e) = true) →
  Forall (λ i, is_Some (store !! i)) items →
  Forall (λ p : obj * outcome entry,
            match p.2 with
            | Fulfilled e => owns_element e
            | Rejected _ =>
                ∃ i e, i ∈ items ∧ store0 !! i = Some e ∧ p.1 = as_obj e ∧
                       hides_method (as_obj e) ∧ __validateAudioElem (entry_audio e) = false
            | Forever =>
                ∃ i e, i ∈ items ∧ store0 !! i = Some e ∧ p.1 = as_obj e ∧
                       unpreparable h (as_obj e)
            end) (make_promises h store items w).2 ∧
  length (make_promises h store items w).2 = length items.
Proof.
  revert store w. induction items as [|i rest IH]; intros store w Hinv Hheld; [done|].
  inversion Hheld as [|? ? [e Hi] Hrest]; subst. cbn [make_promises]. rewrite Hi.
  pose proof (makeAudioElem_outcome (as_obj e) w) as Hone.
  pose proof (makeAudioElem_frame h (as_obj e) w) as Hframe.
  destruct (__makeAudioElem h (as_obj e) w) as [[w1 sound] o].
  destruct (Hframe _ _ _ eq_refl) as (_ & _ & _ & Hsound & _). clear Hframe.
  assert (Hlt : (i < length store)%nat) by by apply lookup_lt_Some in Hi.
  assert (Hinv1 : ∀ j e', <[i:=written e sound]> store !! j = Some e' →
            store0 !! j = Some e' ∨ __validateAudioElem (entry_audio e') = true).
  { intros j e'. destruct (decide (i = j)) as [<-|Hne].
    - rewrite list_lookup_insert_eq by done. intros [= <-].
      destruct e as [s|id]; cbn [written as_obj] in *.
      + subst sound. destruct (__validateAudioElem (prop s "audio")) eqn:Hvalid.
        * by apply Hinv.
        * right. unfold entry_audio. cbn [as_obj]. by rewrite prop_insert_eq.
      + by apply Hinv.
    - rewrite list_lookup_insert_ne by done. apply Hinv. }
  assert (Hheld1 : Forall (λ j, is_Some (<[i:=written e sound]> store !! j)) rest).
  { eapply Forall_impl; [|exact Hrest]. intros j [x Hj].
    apply lookup_lt_is_Some. rewrite length_insert. by apply lookup_lt_Some in Hj. }
  destruct (IH (<[i:=written e sound]> store) w1 Hinv1 Hheld1) as [IHps IHlen].
  destruct (make_promises h _ rest w1) as [[w2 store2] os]. simpl in *.
  split; [|by rewrite IHlen]. constructor.
  - simpl. destruct o as [x|err|]; [done| |].
    + destruct Hone as [Hnew Hhides]. exists i, e. split; [by left|].
      destruct (Hinv i e Hi) as [?|Hv]; [by conjuncts|].
      unfold entry_audio in Hv. congruence.
    + pose proof Hone as (Hnew & _). exists i, e. split; [by left|].
      destruct (Hinv i e Hi) as [?|Hv]; [by conjuncts|].
      unfold entry_audio in Hv. congruence.
  - eapply Forall_impl; [|exact IHps]. intros p Hp. cbv beta in *.
    destruct (p.2); [done| |].
    + destruct Hp as (j & e' & Hj & Hrest'). exists j, e'.
      split; [by apply list_elem_of_further|exact Hrest'].
    + destruct Hp as (j & e' & Hj & Hrest'). exists j, e'.
      split; [by apply list_elem_of_further|exact Hrest'].
Qed.

(** What the handlers push when no promise stays pending: the fulfilled
    ones, each once. *)
Lemma preparedSounds_settled (P : entry → Prop) ps :
  existsb (λ p : obj * outcome entry, is_forever p.2) ps = false →
  Forall (λ p : obj * outcome entry,
            match p.2 with Fulfilled e => P e | _ => True end) ps →
  length (preparedSounds ps) +
    length (List.filter (λ p : obj * outcome entry, is_rejected p.2) ps) = length ps ∧
  Forall P (preparedSounds ps).
Proof.
  intros Hsettled Hps. unfold preparedSounds.
  assert (Hparts : ∀ g : obj * outcome entry → bool,
    Forall P (omap (λ p : obj * outcome entry, fulfilled_with p.2) (List.filter g ps)) ∧
    length (omap (λ p : obj * outcome entry, fulfilled_with p.2) (List.filter g ps)) +
    length (omap (λ p : obj * outcome entry, fulfilled_with p.2)
              (List.filter (λ p, negb (g p)) ps)) +
    length (List.filter (λ p : obj * outcome entry, is_rejected p.2) ps) = length ps).
  { intros g. induction Hps as [|[sound o] ps HP _ IH]; [done|].
    cbn [existsb snd] in Hsettled. apply orb_false_iff in Hsettled as [Ho Hsettled].
    destruct (IH Hsettled) as [IH1 IH2]. clear IH.
    cbn [List.filter snd]. destruct o as [e|err|]; [| |done]; cbn [is_rejected].
    - destruct (g (sound, Fulfilled e)); simpl.
      + split; [by constructor|]. f_equal. exact IH2.
      + split; [done|]. rewrite Nat.add_succ_r. simpl. f_equal. exact IH2.
    - destruct (g (sound, Rejected err)); simpl;
        (split; [done|]); rewrite Nat.add_succ_r; f_equal; exact IH2. }
  destruct (Hparts resolved_at_once) as [H1 H2].
  destruct (Hparts (λ p, negb (resolved_at_once p))) as [H3 _].
  split; [by rewrite length_app|]. by apply Forall_app.
Qed.

End Aggregate.

(** X10: the promise [__makeAudioElemsFromData] returns, for an array without
    holes, is never rejected. A sound with no element whose own property
    [hasOwnProperty] hides the method has its promise rejected. When the
    returned promise is fulfilled, every entry of its value leads to an audio
    element, and each item of the array either gave one entry or was dropped
    with the warning of the [catch]; the dropped ones are sounds with no
    element that hide the method. When it stays pending, some sound of the
    array cannot be prepared (it has no element and no name, or no encoding
    of the browser's list plays). *)
Theorem makeAudioElemsFromData_all_or_nothing h store items w :
  Forall (λ i, is_Some (store !! i)) items →
  (∀ sound w0, __validateAudioElem (prop sound "audio") = false → hides_method sound →
               (__makeAudioElem h sound w0).2 = Rejected TypeError) ∧
  ∃ w' store' o, __makeAudioElemsFromData h store items w = (w', store', o) ∧
    match o with
    | Fulfilled prepared =>
        Forall owns_element prepared ∧
        ∃ dropped,
          console w' = console w ++ (WarnMake <$> dropped) ∧
          length prepared + length dropped = length items ∧
          Forall (λ name, ∃ i e, i ∈ items ∧ store !! i = Some e ∧ name = entry_name e ∧
                                 hides_method (as_obj e) ∧
                                 __validateAudioElem (entry_audio e) = false) dropped
    | Rejected _ => False
    | Forever => Exists (λ i, ∃ e, store !! i = Some e ∧ unpreparable h (as_obj e)) items
    end.
Proof.
  intros Hheld. split; [intros sound w0; apply makeAudioElem_rejected|].
  destruct (make_promises_outcomes h items store store w) as [Hps Hlen]; [by left|done|].
  unfold __makeAudioElemsFromData.
  destruct (make_promises h store items w) as [[w1 store1] ps] eqn:Hmake. simpl in *.
  apply make_promises_frame in Hmake as (_ & _ & Hc & _).
  destruct (warn_rejected_console ps w1) as (_ & _ & _ & Hlog).
  do 3 eexists. split; [reflexivity|].
  destruct (existsb (λ p, is_forever p.2) ps) eqn:Hpending.
  - apply existsb_exists in Hpending as (p & Hin & Hp).
    rewrite Forall_forall in Hps. specialize (Hps p Hin).
    destruct (p.2); try done. destruct Hps as (i & e & Hi & He & _ & Hsound).
    apply Exists_exists. exists i. apply list_elem_of_In in Hi. split; [exact Hi|by exists e].
  - destruct (preparedSounds_settled owns_element ps Hpending) as [Hcount Hown].
    { eapply Forall_impl; [|exact Hps]. intros p Hp. cbv beta in *. by destruct (p.2). }
    split; [done|].
    exists ((λ p : obj * outcome entry, prop p.1 "name") <$>
            List.filter (λ p, is_rejected p.2) ps).
    split; [rewrite Hlog, Hc; f_equal; by rewrite <- list_fmap_compose|].
    split; [by rewrite length_fmap, Hcount|].
    apply Forall_fmap, Forall_forall. intros p [Hin Hrej]%filter_In.
    rewrite Forall_forall in Hps. specialize (Hps p Hin).
    destruct (p.2); try done. destruct Hps as (i & x & Hi & He & Hp1 & Hhides & Hnew).
    exists i, x. simpl. unfold entry_name. by rewrite Hp1.
Qed.

(** The sounds "a" and "b", the second with a property [hasOwnProperty]. *)
Lemma makeAudioElemsFromData_all_or_nothing_witness :
  ∃ w' store' prepared,
    __makeAudioElemsFromData sample_host [ESound (named "a"); ESound hidden_b] [0; 1]
      (boot sample_instance) = (w', store', Fulfilled prepared) ∧
    length prepared = 1 ∧ console w' = [WarnMake (VStr "b")].
Proof.
  assert (Hheld : Forall (λ i, is_Some ([ESound (named "a"); ESound hidden_b] !! i)) [0; 1])
    by (repeat constructor; by eexists).
  destruct (makeAudioElemsFromData_all_or_nothing sample_host
              [ESound (named "a"); ESound hidden_b] [0; 1] (boot sample_instance) Hheld)
    as (_ & w' & store' & o & Hrun & _).
  exists w', store'. revert Hrun. vm_compute. intros [= <- <- <-].
  eexists. split; [reflexivity|]. split; reflexivity.
Defined.

(** * Playback on a ready instance *)

Section Playback.
Context (h : Host).

(** On a ready instance [wait()] is a promise resolved with the instance, and
    waiting for it changes nothing but the promises. *)
Lemma wait_ready w :
  __ready (inst w) = true → inflight w = [] →
  ∃ w1 p, wait h w = (w1, Some p) ∧ await h p w1 = (w1, Fulfilled PThis) ∧
          inst w1 = inst w ∧ dom w1 = dom w ∧ console w1 = console w ∧
          inflight w1 = [] ∧ next_elem w1 = next_elem w.
Proof.
  intros Hready Hidle. unfold wait, Promise_resolve_this, await, new_settled.
  rewrite Hready. do 2 eexists. split; [reflexivity|]. simpl. rewrite Hidle.
  simpl. by rewrite lookup_insert_eq.
Qed.

Lemma element_of_Some s soundName id :
  element_of s soundName = Some id →
  ∃ e, __getSoundData soundName s = Ok e ∧ entry_audio e = VAudio id.
Proof.
  unfold element_of. destruct (__getSoundData soundName s) as [e|]; [|done].
  destruct (entry_audio e) eqn:Haudio; try done. intros [= <-]. by exists e.
Qed.

Lemma element_of_None s soundName :
  element_of s soundName = None →
  __getSoundData soundName s = Throw SoundDataNotFound ∨
  ∃ e, __getSoundData soundName s = Ok e ∧ __validateAudioElem (entry_audio e) = false.
Proof.
  unfold element_of. destruct (__getSoundData soundName s) as [e|err] eqn:Hfind.
  - intros Hnone. right. exists e. split; [done|]. by destruct (entry_audio e).
  - intros _. left. f_equal. by apply (find_sound_throws soundName (__sounds s)).
Qed.

(** What the handler of [pause] does, and what its [catch] logs. *)
Lemma pause_ready soundName w :
  __ready (inst w) = true → inflight w = [] →
  ∃ w', pause h soundName w = (w', Ok (Fulfilled PUndefined)) ∧
        inst w' = inst w ∧ inflight w' = [] ∧ next_elem w' = next_elem w ∧
        console w' = console w ++ pause_warning h (inst w) soundName ∧
        dom w' = match element_of (inst w) soundName with
                 | Some id => if pauseRaises h id then dom w
                              else dom (set_paused id true w)
                 | None => dom w
                 end.
Proof.
  intros Hready Hidle.
  destruct (wait_ready w Hready Hidle) as (w1 & p & Hwait & Hawait & Hi & Hd & Hc & Hf & Hn).
  unfold pause. rewrite Hwait, Hawait. unfold then_, pause_then, pause_warning, element_of.
  rewrite Hi. destruct (__getSoundData soundName (inst w)) as [e|err]; simpl.
  - destruct (entry_audio e); simpl; try (eexists; split; [reflexivity|]; simpl;
      by rewrite ?Hc, ?Hd, ?app_nil_r).
    destruct (pauseRaises h id); simpl; eexists; (split; [reflexivity|]); simpl;
      by rewrite ?Hc, ?Hd, ?app_nil_r.
  - eexists. split; [reflexivity|]. simpl. by rewrite Hc, Hd.
Qed.

(** Stopping twice is stopping once. *)
Lemma stopped_idemp id a : stopped h id (stopped h id a) = stopped h id a.
Proof. unfold stopped. simpl. by destruct (pauseRaises h id). Qed.

(** [stop] on a ready instance. *)
Lemma stop_ready soundName w :
  __ready (inst w) = true → inflight w = [] →
  ∃ w' o, stop h soundName w = (w', Ok o) ∧
          inst w' = inst w ∧ inflight w' = [] ∧ next_elem w' = next_elem w ∧
          console w' = console w ++ pause_warning h (inst w) soundName ∧
          match element_of (inst w) soundName with
          | Some id => o = Fulfilled PUndefined ∧ dom w' = alter (stopped h id) id (dom w)
          | None => (∃ e, o = Rejected e) ∧ dom w' = dom w
          end.
Proof.
  intros Hready Hidle.
  destruct (pause_ready soundName w Hready Hidle) as (w1 & Hpause & Hi & Hf & Hn & Hc & Hd).
  unfold stop. rewrite Hpause. unfold then_, stop_then. rewrite Hi.
  destruct (element_of (inst w) soundName) as [id|] eqn:Hel.
  - destruct (element_of_Some _ _ _ Hel) as (e & -> & ->). simpl.
    do 2 eexists. split; [reflexivity|]. simpl. conjuncts; try done.
    rewrite Hd. destruct (pauseRaises h id) eqn:Hraises; simpl.
    + apply alter_ext. intros a _. unfold stopped. by rewrite Hraises.
    + rewrite alter_alter_eq. apply alter_ext. intros a _.
      unfold stopped. by rewrite Hraises.
  - destruct (element_of_None _ _ Hel) as [->|(e & -> & Haudio)]; simpl.
    + do 2 eexists. split; [reflexivity|]. simpl. conjuncts; try done. by eexists.
    + destruct (entry_audio e); try discriminate Haudio; simpl.
      all: do 2 eexists; (split; [reflexivity|]); simpl; conjuncts; try done; by eexists.
Qed.


Lemma pause_warning_element s soundName id :
  element_of s soundName = Some id →
  pause_warning h s soundName =
    if pauseRaises h id then [WarnPause soundName HostError] else [].
Proof.
  intros (e & Hfind & Haudio)%element_of_Some. unfold pause_warning.
  by rewrite Hfind, Haudio.
Qed.

(** X11: [play] on a ready instance returns nothing and never throws. When
    the first sound of that name has an element, its [play()] is called: the
    element is no longer paused, and nothing else changes; if [play()] raises,
    or no sound has that name, or the sound has no element, nothing changes
    but for one warning in the log. *)
Theorem play_unpauses_or_warns soundName w :
  __ready (inst w) = true → inflight w = [] →
  ∃ w', play h soundName w = (w', Ok tt) ∧ inst w' = inst w ∧
        match element_of (inst w) soundName with
        | Some id =>
            if playRaises h id
            then dom w' = dom w ∧ console w' = console w ++ [WarnPlay soundName HostError]
            else dom w' = dom (set_paused id false w) ∧ console w' = console w
        | None => dom w' = dom w ∧ ∃ e, console w' = console w ++ [WarnPlay soundName e]
        end.
Proof.
  intros Hready Hidle.
  destruct (wait_ready w Hready Hidle) as (w1 & p & Hwait & Hawait & Hi & Hd & Hc & Hf & Hn).
  unfold play. rewrite Hwait, Hawait. unfold then_, play_then, element_of.
  rewrite Hi. destruct (__getSoundData soundName (inst w)) as [e|err]; simpl.
  - destruct (entry_audio e); simpl;
      try (eexists; split; [reflexivity|]; simpl; rewrite Hc, Hd; conjuncts; try done;
           by eexists).
    destruct (playRaises h id); simpl; eexists; (split; [reflexivity|]); simpl;
      by rewrite ?Hc, ?Hd.
  - eexists. split; [reflexivity|]. simpl. rewrite Hc, Hd. conjuncts; try done. by eexists.
Qed.

(** X17: [pause] on a ready instance returns a promise that resolves with
    [undefined], whatever happens. When the first sound of that name has an
    element, its [pause()] is called: the element is paused, its position
    kept, and nothing else changes; if [pause()] raises, if no sound has that
    name, or if the sound has no element, the page is unchanged and exactly
    one warning is logged. *)
Theorem pause_pauses_or_warns soundName w :
  __ready (inst w) = true → inflight w = [] →
  ∃ w', pause h soundName w = (w', Ok (Fulfilled PUndefined)) ∧ inst w' = inst w ∧
        match element_of (inst w) soundName with
        | Some id =>
            if pauseRaises h id
            then dom w' = dom w ∧ console w' = console w ++ [WarnPause soundName HostError]
            else dom w' = dom (set_paused id true w) ∧ console w' = console w
        | None => dom w' = dom w ∧ ∃ e, console w' = console w ++ [WarnPause soundName e]
        end.
Proof.
  intros Hready Hidle.
  destruct (pause_ready soundName w Hready Hidle) as (w' & Hpause & Hi & _ & _ & Hc & Hd).
  exists w'. split; [done|]. split; [done|].
  destruct (element_of (inst w) soundName) as [id|] eqn:Hel.
  - rewrite (pause_warning_element _ _ id Hel) in Hc.
    destruct (pauseRaises h id); [done|]. by rewrite app_nil_r in Hc.
  - split; [done|]. unfold pause_warning in Hc.
    destruct (element_of_None _ _ Hel) as [Hfind|(e & Hfind & Haudio)];
      rewrite Hfind in Hc; [by eexists|].
    destruct (entry_audio e); try discriminate Haudio; by eexists.
Qed.

(** X12: [stop] on a ready instance, for a name whose first sound has an
    element: the promise resolves, the element is rewound to the start and
    paused, and no other element changes. When [pause()] raises, the [catch]
    of [pause] logs the warning and the element is rewound all the same, its
    paused state left as it was. *)
Theorem stop_pauses_and_rewinds soundName w id :
  __ready (inst w) = true → inflight w = [] →
  element_of (inst w) soundName = Some id →
  ∃ w', stop h soundName w = (w', Ok (Fulfilled PUndefined)) ∧
        inst w' = inst w ∧
        dom w' !! id = stopped h id <$> dom w !! id ∧
        (∀ id', id' ≠ id → dom w' !! id' = dom w !! id') ∧
        console w' = console w ++
          (if pauseRaises h id then [WarnPause soundName HostError] else []).
Proof.
  intros Hready Hidle Hel.
  destruct (stop_ready soundName w Hready Hidle) as (w' & o & Hstop & Hi & _ & _ & Hc & Hd).
  rewrite Hel in Hd. destruct Hd as [-> Hd]. exists w'. conjuncts; try done.
  - rewrite Hd. apply lookup_alter_eq.
  - intros id' Hne. rewrite Hd. by apply lookup_alter_ne.
  - by rewrite Hc, (pause_warning_element _ _ id).
Qed.

(** ** Every sound at once *)

Lemma stop_each_ready names w :
  __ready (inst w) = true → inflight w = [] →
  ∃ w' os, stop_each h names w = (w', Ok os) ∧
           inst w' = inst w ∧ inflight w' = [] ∧ next_elem w' = next_elem w ∧
           console w' = console w ++ mjoin (pause_warning h (inst w) <$> names) ∧
           dom w' = stopped_dom h (inst w) names (dom w) ∧
           Forall2 (λ name o, match element_of (inst w) name with
                              | Some _ => o = Fulfilled PUndefined
                              | None => ∃ e, o = Rejected e
                              end) names os.
Proof.
  revert w. induction names as [|name rest IH]; intros w Hready Hidle.
  - exists w, []. simpl. rewrite app_nil_r. by conjuncts.
  - destruct (stop_ready name w Hready Hidle) as (w1 & o & Hstop & Hi & Hf & Hn & Hc & Hd).
    destruct (IH w1) as (w2 & os & Hrest & Hi2 & Hf2 & Hn2 & Hc2 & Hd2 & Hos);
      [by rewrite Hi|done|].
    exists w2, (o :: os). cbn [stop_each]. rewrite Hstop, Hrest. rewrite Hi in *.
    conjuncts; try done.
    + congruence.
    + by rewrite Hc2, Hc, fmap_cons, <- app_assoc.
    + rewrite Hd2. unfold stopped_dom. cbn [foldl].
      by destruct (element_of (inst w) name) as [id|]; destruct Hd as [_ ->].
    + constructor; [|done]. by destruct (element_of (inst w) name); destruct Hd.
Qed.

Lemma Promise_all_stops (el : val → option nat) names (os : list (outcome pvalue)) :
  Forall2 (λ name o, match el name with
                     | Some _ => o = Fulfilled PUndefined
                     | None => ∃ e, o = Rejected e
                     end) names os →
  (Forall (λ name, is_Some (el name)) names →
   Promise_all os = Fulfilled (replicate (length names) PUndefined)) ∧
  (Exists (λ name, el name = None) names → ∃ e, Promise_all os = Rejected e).
Proof.
  induction 1 as [|name o names os Ho _ [IH1 IH2]]; simpl.
  - split; [done|]. by intros ?%Exists_nil.
  - destruct (el name) as [id|] eqn:Hel.
    + subst o. split.
      * intros Hfa. inversion Hfa as [|? ? _ Hrest]; subst. by rewrite IH1.
      * intros [?|Hrest]%Exists_cons; [congruence|].
        destruct (IH2 Hrest) as [e ->]. by exists e.
    + destruct Ho as [e ->]. split.
      * intros Hfa. inversion Hfa as [|? ? [? ?] _]; subst. congruence.
      * intros _. by exists e.
Qed.

Lemma stopped_dom_lookup s names d id :
  stopped_dom h s names d !! id =
    (if bool_decide (Some id ∈ element_of s <$> names) then stopped h id else λ a, a)
      <$> d !! id.
Proof.
  unfold stopped_dom. revert d. induction names as [|name rest IH]; intros d.
  - simpl. by destruct (d !! id).
  - cbn [foldl]. rewrite IH, fmap_cons. destruct (element_of s name) as [id'|] eqn:Hel.
    + destruct (decide (id' = id)) as [->|Hne].
      * rewrite lookup_alter_eq.
        rewrite (bool_decide_eq_true_2 (Some id ∈ Some id :: _)) by apply list_elem_of_here.
        destruct (d !! id) as [a|]; [|done]. simpl.
        case_bool_decide; [by rewrite stopped_idemp|done].
      * rewrite lookup_alter_ne by done. f_equal.
        assert (Hiff : Some id ∈ (element_of s <$> rest) ↔
                       Some id ∈ Some id' :: (element_of s <$> rest)).
        { rewrite elem_of_cons. split; [by right|]. intros [[=]|?]; [congruence|done]. }
        by rewrite (bool_decide_ext _ _ Hiff).
    + assert (Hiff : Some id ∈ (element_of s <$> rest) ↔
                     Some id ∈ None :: (element_of s <$> rest)).
      { rewrite elem_of_cons. split; [by right|]. by intros [[=]|?]. }
      by rewrite (bool_decide_ext _ _ Hiff).
Qed.

(** X13: [stopAll] on a ready instance never throws. Every element that is
    the element of the first sound of some name in the registry is stopped, once
    however many sounds share it, and every other element is left alone. The
    promise resolves when each name in the registry leads to an element, with
    one [undefined] for each sound, and is rejected as soon as one does not. *)
Theorem stopAll_stops_each w :
  __ready (inst w) = true → inflight w = [] →
  let names := entry_name <$> __sounds (inst w) in
  ∃ w' o, stopAll h w = (w', Ok o) ∧ inst w' = inst w ∧
    (∀ id, dom w' !! id =
             (if bool_decide (Some id ∈ element_of (inst w) <$> names)
              then stopped h id else λ a, a) <$> dom w !! id) ∧
    (Forall (λ name, is_Some (element_of (inst w) name)) names →
     o = Fulfilled (replicate (length names) PUndefined)) ∧
    (Exists (λ name, element_of (inst w) name = None) names → ∃ e, o = Rejected e).
Proof.
  intros Hready Hidle names.
  destruct (stop_each_ready names w Hready Hidle)
    as (w' & os & Hrun & Hi & _ & _ & _ & Hd & Hos).
  destruct (Promise_all_stops (element_of (inst w)) names os Hos) as [Hall Hsome].
  exists w', (Promise_all os). unfold stopAll. fold names. rewrite Hrun.
  conjuncts; try done. intros id. rewrite Hd. apply stopped_dom_lookup.
Qed.

(** X14: [destruct] on a ready instance never throws. When each name in the
    registry leads to an element, the promise resolves and the registry is
    emptied, so that no name is known any more; otherwise the promise is
    rejected and the registry is left as it was. In both cases the instance
    stays ready. *)
Theorem destruct_clears_or_keeps w :
  __ready (inst w) = true → inflight w = [] →
  let names := entry_name <$> __sounds (inst w) in
  ∃ w' o, destruct h w = (w', Ok o) ∧ __ready (inst w') = true ∧
    (Forall (λ name, is_Some (element_of (inst w) name)) names →
     o = Fulfilled PUndefined ∧ __sounds (inst w') = [] ∧
     ∀ soundName, hasSound soundName (inst w') = false) ∧
    (Exists (λ name, element_of (inst w) name = None) names →
     (∃ e, o = Rejected e) ∧ __sounds (inst w') = __sounds (inst w)).
Proof.
  intros Hready Hidle names.
  destruct (stop_each_ready names w Hready Hidle)
    as (w1 & os & Hrun & Hi & _ & _ & _ & _ & Hos).
  destruct (Promise_all_stops (element_of (inst w)) names os Hos) as [Hall Hsome].
  unfold destruct, stopAll. fold names. rewrite Hrun.
  destruct (Promise_all os) as [vs|e|] eqn:Hpromise; simpl.
  - do 2 eexists. split; [reflexivity|]. simpl. rewrite Hi. conjuncts; try done.
    intros Hex. destruct (Hsome Hex) as [e He]. discriminate He.
  - do 2 eexists. split; [reflexivity|]. rewrite Hi. conjuncts; try done.
    + intros Hfa. by specialize (Hall Hfa).
    + intros _. split; [by exists e|done].
  - do 2 eexists. split; [reflexivity|]. rewrite Hi. conjuncts; try done.
    + intros Hfa. by specialize (Hall Hfa).
    + intros Hex. destruct (Hsome Hex) as [e He]. discriminate He.
Qed.

End Playback.

(** The sound "a" of the sample page, played, stopped, and destructed. *)
Lemma play_unpauses_or_warns_witness :
  ∃ w', play sample_host (VStr "a") sample_ready = (w', Ok tt) ∧
        inst w' = inst sample_ready.
Proof.
  assert (Hready : __ready (inst sample_ready) = true) by (vm_compute; reflexivity).
  assert (Hidle : inflight sample_ready = []) by (vm_compute; reflexivity).
  destruct (play_unpauses_or_warns sample_host (VStr "a") sample_ready Hready Hidle)
    as (w' & Hplay & Hinst & _).
  exists w'. split; [exact Hplay|exact Hinst].
Defined.

Lemma pause_pauses_or_warns_witness :
  ∃ w', pause sample_host (VStr "a") sample_ready = (w', Ok (Fulfilled PUndefined)) ∧
        inst w' = inst sample_ready.
Proof.
  assert (Hready : __ready (inst sample_ready) = true) by (vm_compute; reflexivity).
  assert (Hidle : inflight sample_ready = []) by (vm_compute; reflexivity).
  destruct (pause_pauses_or_warns sample_host (VStr "a") sample_ready Hready Hidle)
    as (w' & Hpause & Hinst & _).
  exists w'. split; [exact Hpause|exact Hinst].
Defined.

Lemma stop_pauses_and_rewinds_witness :
  ∃ w', stop sample_host (VStr "a") sample_ready = (w', Ok (Fulfilled PUndefined)) ∧
        console w' = console sample_ready ++ [].
Proof.
  assert (Hready : __ready (inst sample_ready) = true) by (vm_compute; reflexivity).
  assert (Hidle : inflight sample_ready = []) by (vm_compute; reflexivity).
  assert (Hel : element_of (inst sample_ready) (VStr "a") = Some 0)
    by (vm_compute; reflexivity).
  destruct (stop_pauses_and_rewinds sample_host (VStr "a") sample_ready 0 Hready Hidle Hel)
    as (w' & Hstop & _ & _ & _ & Hlog).
  exists w'. split; [exact Hstop|exact Hlog].
Defined.

Lemma stopAll_stops_each_witness :
  ∃ w' o, stopAll sample_host sample_ready = (w', Ok o) ∧ inst w' = inst sample_ready.
Proof.
  assert (Hready : __ready (inst sample_ready) = true) by (vm_compute; reflexivity).
  assert (Hidle : inflight sample_ready = []) by (vm_compute; reflexivity).
  destruct (stopAll_stops_each sample_host sample_ready Hready Hidle)
    as (w' & o & Hstop & Hinst & _).
  exists w', o. split; [exact Hstop|exact Hinst].
Defined.

Lemma destruct_clears_or_keeps_witness :
  ∃ w', destruct sample_host sample_ready = (w', Ok (Fulfilled PUndefined)) ∧
        __sounds (inst w') = [].
Proof.
  assert (Hready : __ready (inst sample_ready) = true) by (vm_compute; reflexivity).
  assert (Hidle : inflight sample_ready = []) by (vm_compute; reflexivity).
  assert (Hall : Forall (λ name, is_Some (element_of (inst sample_ready) name))
                   (entry_name <$> __sounds (inst sample_ready))).
  { assert (Hnames : entry_name <$> __sounds (inst sample_ready) = [VStr "a"])
      by (vm_compute; reflexivity).
    rewrite Hnames. constructor; [|constructor]. exists 0. vm_compute. reflexivity. }
  destruct (destruct_clears_or_keeps sample_host sample_ready Hready Hidle)
    as (w' & o & Hrun & _ & Hclears & _).
  destruct (Hclears Hall) as (Ho & Hempty & _). subst o.
  exists w'. split; [exact Hrun|exact Hempty].
Defined.

(** * The facade in every state an instance can reach *)

Section Reachable.
Context (h : Host).

(** What [stop] adds to [pause] can only fail at the lookup or at the element. *)
Lemma stop_then_throws soundName v w w' e :
  stop_then soundName v w = (w', Throw e) → e = SoundDataNotFound ∨ e = TypeError.
Proof.
  unfold stop_then. destruct (__getSoundData soundName (inst w)) as [x|err] eqn:Hfind.
  - destruct (entry_audio x); intros [= _ <-]; by right.
  - intros [= _ <-]. left. by apply (find_sound_throws soundName (__sounds (inst w))).
Qed.

(** A run that is not rejected settles in silence; one that is fulfilled
    assigns its sounds to the registry. *)
Lemma deliver_quiet r o w :
  is_rejected o = false →
  console (deliver r o w) = console w ∧ inflight (deliver r o w) = inflight w ∧
  ∀ sounds, o = Fulfilled sounds → __sounds (inst (deliver r o w)) = sounds.
Proof.
  intros Ho. unfold deliver, prepare_chain.
  destruct o as [sounds|e|]; [|done|]; simpl; case_bool_decide; conjuncts; try done.
  all: by intros ? [= <-].
Qed.

(** Sounds that have the method in reach: no promise is rejected, and the
    sounds stay so. *)
Lemma make_promises_plain items store w :
  Forall plain store →
  Forall plain (make_promises h store items w).1.2 ∧
  Forall (λ p : obj * outcome entry,
            match p.2 with
            | Fulfilled e => plain e
            | Rejected _ => False
            | Forever => True
            end) (make_promises h store items w).2.
Proof.
  revert store w. induction items as [|i rest IH]; intros store w Hstore; [done|].
  cbn [make_promises]. destruct (store !! i) as [e|] eqn:Hi; [|by apply IH].
  assert (He : plain e).
  { rewrite Forall_forall in Hstore. apply Hstore, list_elem_of_In, list_elem_of_lookup.
    by exists i. }
  pose proof (makeAudioElem_frame h (as_obj e) w) as Hframe.
  destruct (__makeAudioElem h (as_obj e) w) as [[w1 sound] o].
  destruct (Hframe _ _ _ eq_refl) as (_ & _ & _ & Hsound & Hrej & Hful). clear Hframe.
  assert (Hkept : sound !! "hasOwnProperty" = None).
  { subst sound. destruct (__validateAudioElem _); [done|]. by rewrite lookup_insert_ne. }
  assert (Hwritten : plain (written e sound)) by by destruct e.
  destruct (IH (<[i:=written e sound]> store) w1) as [IH1 IH2]; [by apply Forall_insert|].
  destruct (make_promises h _ rest w1) as [[w2 store2] os]. simpl in *.
  split; [done|]. constructor; [|done]. simpl. destruct o as [x|err|]; [| |done].
  - destruct (Hful x eq_refl) as [[id ->]| ->]; done.
  - destruct (Hrej err eq_refl) as (_ & [v Hv] & _). unfold plain in He. congruence.
Qed.

(** The call on a registry of such sounds: nothing is logged, the registry
    and what the promise resolves with hold such sounds still. *)
Lemma makeAudioElemsFromData_this_plain w w' o :
  Forall plain (__sounds (inst w)) →
  __makeAudioElemsFromData_this h w = (w', o) →
  console w' = console w ∧ Forall plain (__sounds (inst w')) ∧
  ∀ sounds, o = Fulfilled sounds → Forall plain sounds.
Proof.
  intros Hplain. unfold __makeAudioElemsFromData_this, __makeAudioElemsFromData.
  destruct (make_promises_plain (slots (__sounds (inst w))) (__sounds (inst w)) w Hplain)
    as [Hstore Hps].
  destruct (make_promises h _ _ w) as [[w1 store1] ps] eqn:Hmake. simpl in *.
  apply make_promises_frame in Hmake as (_ & _ & Hc & _).
  rewrite warn_rejected_none.
  2:{ eapply Forall_impl; [|exact Hps]. intros p Hp. cbv beta in *. by destruct (p.2). }
  intros [= <- <-]. simpl. conjuncts; try done.
  intros sounds. destruct (existsb _ ps) eqn:Hpending; [done|]. intros [= <-].
  apply (preparedSounds_settled plain ps Hpending).
  eapply Forall_impl; [|exact Hps]. intros p Hp. cbv beta in *. by destruct (p.2).
Qed.

(** Under the events that come from the code, the runs are not rejected and
    the log holds nothing but the warnings of [__makeAudioElemsFromData]. *)
Lemma step_made_only ev w :
  computed ev = true →
  Forall (λ x, ∃ name, x = WarnMake name) (console w) ∧
  Forall (λ r, is_rejected (run_result r) = false) (inflight w) →
  Forall (λ x, ∃ name, x = WarnMake name) (console (step h ev w)) ∧
  Forall (λ r, is_rejected (run_result r) = false) (inflight (step h ev w)).
Proof.
  intros Hev [Hlog Hruns].
  assert (Hprepare : Forall (λ x, ∃ name, x = WarnMake name) (console (prepare h w).1) ∧
            Forall (λ r, is_rejected (run_result r) = false) (inflight (prepare h w).1)).
  { unfold prepare, Promise_resolve_this. destruct (__ready (inst w)); [done|].
    destruct (__preparing (inst w)); [done|].
    destruct (__makeAudioElemsFromData_this h _) as [w2 o] eqn:Hmake.
    apply makeAudioElemsFromData_this_frame in Hmake
      as (_ & _ & Hf & _ & _ & _ & _ & _ & Ho & _ & names & Hc).
    simpl. rewrite Hc, Hf. simpl. split.
    - apply Forall_app. split; [done|]. apply Forall_fmap, Forall_forall.
      intros name _. by exists name.
    - apply Forall_app. split; [done|]. by constructor. }
  destruct ev as [| | | |e|l]; simpl; try done.
  - unfold init_prepare. by destruct (prepare h w).
  - by rewrite wait_is_prepare.
  - destruct (inflight w) as [|r rest] eqn:Hin; [by rewrite Hin|].
    inversion Hruns as [|? ? Hr Hrest]; subst.
    destruct (run_result r) as [sounds|e|] eqn:Hres; [|done|by rewrite Hin].
    destruct (deliver_quiet r (Fulfilled sounds) (set_inflight rest w)) as (-> & -> & _); done.
Qed.

(** With the method in reach of every sound, nothing is logged at all. *)
Lemma step_quiet ev w :
  plain_event ev →
  console w = [] ∧ Forall plain (__sounds (inst w)) ∧
  Forall (λ r, match run_result r with
               | Fulfilled sounds => Forall plain sounds
               | Rejected _ => False
               | Forever => True
               end) (inflight w) →
  console (step h ev w) = [] ∧ Forall plain (__sounds (inst (step h ev w))) ∧
  Forall (λ r, match run_result r with
               | Fulfilled sounds => Forall plain sounds
               | Rejected _ => False
               | Forever => True
               end) (inflight (step h ev w)).
Proof.
  intros Hev (Hlog & Hreg & Hruns).
  assert (Hprepare :
    console (prepare h w).1 = [] ∧ Forall plain (__sounds (inst (prepare h w).1)) ∧
    Forall (λ r, match run_result r with
                 | Fulfilled sounds => Forall plain sounds
                 | Rejected _ => False
                 | Forever => True
                 end) (inflight (prepare h w).1)).
  { unfold prepare, Promise_resolve_this. destruct (__ready (inst w)); [done|].
    destruct (__preparing (inst w)); [done|].
    destruct (__makeAudioElemsFromData_this h _) as [w2 o] eqn:Hmake.
    pose proof Hmake as (_ & _ & Hf & _ & _ & _ & _ & _ & Ho & _)%makeAudioElemsFromData_this_frame.
    apply makeAudioElemsFromData_this_plain in Hmake as (Hc & Hreg2 & Hsounds); [|done].
    simpl in *. rewrite Hc, Hf. split; [done|]. split; [done|].
    apply Forall_app. split; [done|]. constructor; [|done]. simpl.
    destruct o as [sounds| |]; [by apply Hsounds|done|done]. }
  destruct ev as [| | | |e|l]; simpl; try done.
  - unfold init_prepare. by destruct (prepare h w).
  - by rewrite wait_is_prepare.
  - destruct (inflight w) as [|r rest] eqn:Hin; [by rewrite Hin|].
    inversion Hruns as [|? ? Hr Hrest]; subst.
    destruct (run_result r) as [sounds|e|] eqn:Hres; [|done|by rewrite Hin].
    destruct (deliver_quiet r (Fulfilled sounds) (set_inflight rest w)) as (-> & -> & Hs);
      [done|]. by rewrite (Hs sounds eq_refl).
Qed.

End Reachable.

(** X15: in every state an instance can reach, [play], [pause] and [stop]
    return normally, whatever the name: the promise of [wait()] they chain on
    is always there. The promise of [pause] is never rejected; the promise of
    [stop] is rejected only when the sound is not found, or has no element. *)
Theorem facade_never_throws h nav params s evs soundName :
  new_Sounder nav params = Ok s →
  let w := exec h evs (boot s) in
  (∃ w', play h soundName w = (w', Ok tt)) ∧
  (∃ w' o, pause h soundName w = (w', Ok o) ∧ is_rejected o = false) ∧
  (∃ w' o, stop h soundName w = (w', Ok o) ∧
           ∀ e, o = Rejected e → e = SoundDataNotFound ∨ e = TypeError).
Proof.
  intros Hnew w.
  assert (Hw : coalesced w) by (apply exec_coalesced; by apply (boot_coalesced nav params)).
  destruct (play_pause_return h soundName w Hw) as [Hplay (w1 & o & Hpause)].
  pose proof (pause_not_rejected h soundName w w1 o Hpause) as Ho.
  conjuncts; [done|by exists w1, o|].
  unfold stop. rewrite Hpause. destruct o as [v|e|]; [|done|]; simpl.
  - destruct (stop_then soundName v w1) as [w2 [v'|e]] eqn:Hthen; simpl.
    + do 2 eexists. split; [reflexivity|]. by intros e [=].
    + do 2 eexists. split; [reflexivity|]. intros e' [= <-].
      by apply (stop_then_throws soundName v w1 w2).
  - do 2 eexists. split; [reflexivity|]. by intros e [=].
Qed.

Lemma facade_never_throws_witness :
  ∃ w', play sample_host (VStr "a") (exec sample_host [InitPrepares] (boot sample_instance))
          = (w', Ok tt).
Proof.
  destruct (facade_never_throws sample_host firefox loop_by_default sample_instance
              [InitPrepares] (VStr "a") eq_refl) as [Hplay _].
  exact Hplay.
Defined.

(** X16: on the page of a new instance, as long as no failure comes from
    outside the code, whatever the calls and however the runs settle, the log
    holds nothing but the warning of [__makeAudioElemsFromData], printed for
    a sound that is dropped: the warnings of [prepare] and of [Sounder.init]
    are never printed. And when no sound of the registry, then or later, has
    an own property that hides the method [hasOwnProperty], nothing is logged
    at all: a preparation that cannot succeed stays silent. *)
Theorem preparation_warnings h s evs :
  (forallb computed evs = true →
   Forall (λ x, ∃ name, x = WarnMake name) (console (exec h evs (boot s)))) ∧
  (Forall plain (__sounds s) → Forall plain_event evs →
   console (exec h evs (boot s)) = []).
Proof.
  split.
  - intros Hevs.
    assert (Hmade : ∀ w,
      Forall (λ x, ∃ name, x = WarnMake name) (console w) ∧
      Forall (λ r, is_rejected (run_result r) = false) (inflight w) →
      Forall (λ x, ∃ name, x = WarnMake name) (console (exec h evs w))).
    { induction evs as [|ev evs' IH]; intros w Hw; [by destruct Hw|].
      simpl in Hevs. apply andb_true_iff in Hevs as [Hev Hrest].
      simpl. apply (IH Hrest). by apply step_made_only. }
    apply Hmade. by split.
  - intros Hreg Hevs.
    assert (Hquiet : ∀ w,
      console w = [] ∧ Forall plain (__sounds (inst w)) ∧
      Forall (λ r, match run_result r with
                   | Fulfilled sounds => Forall plain sounds
                   | Rejected _ => False
                   | Forever => True
                   end) (inflight w) →
      console (exec h evs w) = []).
    { induction Hevs as [|ev evs' Hev _ IH]; intros w Hw; [by destruct Hw|].
      simpl. apply IH. by apply step_quiet. }
    apply Hquiet. by conjuncts.
Qed.

(** The sample instance in a browser that plays nothing: the preparation
    cannot succeed, and nothing is logged. *)
Lemma preparation_warnings_witness :
  console (exec silent_host [InitPrepares; CallWait; RunSettles; CallPrepare]
             (boot sample_instance)) = [].
Proof.
  destruct (preparation_warnings silent_host sample_instance
              [InitPrepares; CallWait; RunSettles; CallPrepare]) as [_ Hquiet].
  apply Hquiet; repeat constructor.
Defined.
